(** * The fast downloader of goroutines.go: goroutines and one channel

    The program under study is the "Fast Downloader" of the goroutines
    article: [main] creates a channel of strings, launches three
    [download] goroutines and receives three messages.

    The embedding is a small-step interleaving semantics for the fragment
    of Go that the program uses ([fmt.Println], [time.Sleep], [c <- v],
    [fmt.Println(<-c)] and [go f(..)]) over one channel [c].  A schedule
    (a list of [action]s) says which goroutine moves next, so that every
    execution of the program is the run of some schedule, and each run can
    be evaluated.

    Time is logical: every goroutine has a clock, [time.Sleep(d)] advances
    it by [d], a message is handed over at the later of the clocks of its
    sender and its receiver, and nothing else takes time.  Statements of
    different goroutines may be taken in any order, whatever their clocks,
    so the runs of the model include every run of the program. *)

From stdpp Require Import base option list numbers strings.

Set Warnings "-register-all".

(** ** Programs *)

(** The statements of the fragment.  All channel operations are on the one
    channel [c] that [main] creates, so the channel is not named. *)
Inductive instr : Type :=
  | Println (line : string)      (* fmt.Println(line) *)
  | Sleep (d : Z)                (* time.Sleep(d), d in nanoseconds *)
  | Send (msg : string)          (* c <- msg *)
  | RecvPrintln                  (* fmt.Println(<-c) *)
  | Go (body : list instr).      (* go f(args), body = the body of f at args *)

(** [time.Second], a [time.Duration] in nanoseconds. *)
Definition Second : Z := 1000000000.

(** [fmt.Println(a, b)] writes its operands separated by one space. *)
Definition starting (site : string) : string :=
  "Starting download from:" +:+ " " +:+ site.

(** The message that [download] sends: [site + " is done!"]. *)
Definition done_msg (site : string) : string := site +:+ " is done!".

(** [func download(site string, c chan string)], goroutines.go lines 29-33. *)
Definition download (site : string) : list instr :=
  [ Println (starting site);
    Sleep (2 * Second);
    Send (done_msg site) ].

Definition finished : string := "All downloads finished!".

(** [func main()], goroutines.go lines 35-51; [c := make(chan string)] is
    the channel of the initial state, see [init]. *)
Definition main : list instr :=
  [ Go (download "Google.com");
    Go (download "Amazon.com");
    Go (download "Github.com");
    RecvPrintln;
    RecvPrintln;
    RecvPrintln;
    Println finished ].

(** The same program for any list of sites: one [go download(site, c)] per
    site, as many receives as sites, then the closing line.  [main] is its
    instance at the three sites of the article ([main_run_prog]). *)
Definition launch (sites : list string) : list instr :=
  (λ site, Go (download site)) <$> sites.

Definition collect (n : nat) : list instr := replicate n RecvPrintln.

Definition run_prog (sites : list string) : list instr :=
  launch sites ++ collect (length sites) ++ [Println finished].

Definition the_sites : list string := ["Google.com"; "Amazon.com"; "Github.com"].

(** The time one download takes: [time.Sleep(2 * time.Second)]. *)
Definition nap : Z := 2 * Second.

(** ** Machine states *)

(** A goroutine: the statements it still has to run and its local clock
    (nanoseconds since the program started).  Only [time.Sleep] and waiting
    for a channel partner advance a clock. *)
Record goroutine : Type := Goroutine { code : list instr; clock : Z }.

(** The channel [make(chan string, cap)]: the queued messages, each with
    the time it was sent, and the free slots, each with the time it became
    free.  With [cap = 0] both lists stay empty and a message passes only by
    rendezvous. *)
Record channel : Type :=
  Channel { cap : nat; buf : list (string * Z); slots : list Z }.

Definition make_chan (K : nat) : channel := Channel K [] (replicate K 0%Z).

(** What an execution does, in order, each with the goroutine and the time. *)
Inductive event : Type :=
  | EvPrint (g : nat) (line : string) (t : Z)
  | EvGo (g child : nat) (t : Z)
  | EvSend (g : nat) (msg : string) (t : Z)
  | EvRecv (g : nat) (msg : string) (t : Z).

(** Goroutine 0 of the pool is [main]. *)
Record state : Type :=
  State { pool : list goroutine; chan : channel; trace : list event }.

Definition init (K : nat) (prog : list instr) : state :=
  State [Goroutine prog 0] (make_chan K) [].

(** A Go program ends when [main] returns, whatever the other goroutines
    are doing. *)
Definition exited (s : state) : bool :=
  match pool s with
  | g :: _ => match code g with [] => true | _ => false end
  | [] => true
  end.

(** ** Steps *)

Inductive action : Type :=
  | Local (i : nat)        (* goroutine i runs its next statement *)
  | Sync (i j : nat).      (* rendezvous: i sends, j receives *)

(** Goroutine [i] runs its next statement on its own.  A send needs a free
    slot and a receive a queued message; otherwise the goroutine is blocked
    (no step). *)
Definition step_local (i : nat) (s : state) : option state :=
  match pool s !! i with
  | None => None
  | Some g =>
    let t := clock g in
    match code g with
    | [] => None
    | Println line :: rest =>
        Some (State (<[i := Goroutine rest t]> (pool s)) (chan s)
                    (trace s ++ [EvPrint i line t]))
    | Sleep d :: rest =>
        Some (State (<[i := Goroutine rest (t + Z.max 0 d)]> (pool s)) (chan s)
                    (trace s))
    | Go body :: rest =>
        Some (State (<[i := Goroutine rest t]> (pool s) ++ [Goroutine body t])
                    (chan s)
                    (trace s ++ [EvGo i (length (pool s)) t]))
    | Send msg :: rest =>
        match slots (chan s) with
        | [] => None
        | free :: slots' =>
            let t' := Z.max t free in
            Some (State (<[i := Goroutine rest t']> (pool s))
                        (Channel (cap (chan s)) (buf (chan s) ++ [(msg, t')]) slots')
                        (trace s ++ [EvSend i msg t']))
        end
    | RecvPrintln :: rest =>
        match buf (chan s) with
        | [] => None
        | (msg, sent) :: buf' =>
            let t' := Z.max t sent in
            Some (State (<[i := Goroutine (Println msg :: rest) t']> (pool s))
                        (Channel (cap (chan s)) buf' (slots (chan s) ++ [t']))
                        (trace s ++ [EvRecv i msg t']))
        end
    end
  end.

(** On a channel without buffer, sender [i] and receiver [j] move together,
    at the time the later of the two arrives. *)
Definition step_sync (i j : nat) (s : state) : option state :=
  match cap (chan s), pool s !! i, pool s !! j with
  | O, Some gi, Some gj =>
      match code gi, code gj with
      | Send msg :: ri, RecvPrintln :: rj =>
          let t' := Z.max (clock gi) (clock gj) in
          Some (State (<[j := Goroutine (Println msg :: rj) t']>
                         (<[i := Goroutine ri t']> (pool s)))
                      (chan s)
                      (trace s ++ [EvSend i msg t'; EvRecv j msg t']))
      | _, _ => None
      end
  | _, _, _ => None
  end.

Definition exec (a : action) (s : state) : option state :=
  if exited s then None
  else match a with
       | Local i => step_local i s
       | Sync i j => step_sync i j s
       end.

(** The run of a schedule: [None] when some action of it is not enabled. *)
Fixpoint run (sched : list action) (s : state) : option state :=
  match sched with
  | [] => Some s
  | a :: sched' =>
      match exec a s with
      | Some s' => run sched' s'
      | None => None
      end
  end.

Definition reachable (s0 s : state) : Prop := ∃ sched, run sched s0 = Some s.

(** The actions enabled in a state, and the two ways a program can stop. *)
Definition all_actions (n : nat) : list action :=
  (Local <$> seq 0 n) ++
  (i ← seq 0 n; (Sync i) <$> seq 0 n).

Definition enabled (s : state) : list action :=
  filter (λ a, is_Some (exec a s)) (all_actions (length (pool s))).

(** "all goroutines are asleep - deadlock!" (goroutines.go lines 65-68):
    [main] has not returned and no goroutine can move. *)
Definition deadlocked (s : state) : bool :=
  negb (exited s) && bool_decide (enabled s = []).

(** ** What an execution shows *)

Definition recv_of (e : event) : option string :=
  match e with EvRecv _ msg _ => Some msg | _ => None end.

Definition recv_time_of (e : event) : option Z :=
  match e with EvRecv _ _ t => Some t | _ => None end.

Definition sent_by (i : nat) (e : event) : option string :=
  match e with
  | EvSend g msg _ => if decide (g = i) then Some msg else None
  | _ => None
  end.

Definition printed_by (i : nat) (e : event) : option string :=
  match e with
  | EvPrint g line _ => if decide (g = i) then Some line else None
  | _ => None
  end.

Definition go_of (e : event) : option nat :=
  match e with EvGo _ child _ => Some child | _ => None end.

(** The values pulled from the channel, in arrival order. *)
Definition received (s : state) : list string := omap recv_of (trace s).

(** The lines [main] has written. *)
Definition main_output (s : state) : list string := omap (printed_by 0) (trace s).

(** RunState of the spec: tasks dispatched and results received so far. *)
Definition dispatched_count (s : state) : nat := length (omap go_of (trace s)).
Definition received_count (s : state) : nat := length (received s).

(** The clock of [main]: the time of the program. *)
Definition now (s : state) : Z :=
  match pool s with g :: _ => clock g | [] => 0%Z end.

(** A result travels as the string [site + " is done!"]; the key of its
    task is what stands before the nine characters of [" is done!"]. *)
Definition result_key (msg : string) : string :=
  String.substring 0 (String.length msg - 9) msg.

(** How a program stands: still running, returned from [main] with the
    values it received, or stopped by the runtime's deadlock detector. *)
Inductive outcome : Type :=
  | Running
  | Completed (results : list string)
  | Deadlock.

Definition outcome_of (s : state) : outcome :=
  if exited s then Completed (received s)
  else if deadlocked s then Deadlock
  else Running.

(** The results that have arrived by time [T]. *)
Definition arrived_by (T : Z) (s : state) : nat :=
  length (filter (λ t, (t ≤ T)%Z) (omap recv_time_of (trace s))).

(** ** Schedules *)

(** One execution of [main]: the three launches, then the downloads in
    turn, Amazon.com arriving first. *)
Definition demo_sched : list action :=
  [ Local 0; Local 0; Local 0;
    Local 1; Local 1; Local 2; Local 2;
    Sync 2 0; Local 0;
    Local 3; Local 3;
    Sync 1 0; Local 0;
    Sync 3 0; Local 0;
    Local 0 ].

(** The goroutine of a site of [main] is the one after its place in
    [the_sites]. *)
Definition site_index (site : string) : option nat :=
  fst <$> list_find (λ x, x = site) the_sites.

(** The execution of [main] in which the downloads arrive in a given
    order: launch the three, let each print and sleep, then let them hand
    over their message one after the other. *)
Definition arrival_sched (order : list string) : list action :=
  [Local 0; Local 0; Local 0;
   Local 1; Local 1; Local 2; Local 2; Local 3; Local 3]
  ++ (site ← order;
      match site_index site with
      | Some j => [Sync (S j) 0; Local 0]
      | None => []
      end)
  ++ [Local 0].

(** ** The steps as a relation *)

(** [step s a s'] is [exec a s = Some s'] read as rules, one per statement
    ([exec_step] below); the proofs go by inversion on it. *)
Inductive step : state → action → state → Prop :=
  | step_println p c tr i line rest t :
      p !! i = Some (Goroutine (Println line :: rest) t) →
      step (State p c tr) (Local i)
           (State (<[i := Goroutine rest t]> p) c (tr ++ [EvPrint i line t]))
  | step_sleep p c tr i d rest t :
      p !! i = Some (Goroutine (Sleep d :: rest) t) →
      step (State p c tr) (Local i)
           (State (<[i := Goroutine rest (t + Z.max 0 d)]> p) c tr)
  | step_go p c tr i body rest t :
      p !! i = Some (Goroutine (Go body :: rest) t) →
      step (State p c tr) (Local i)
           (State (<[i := Goroutine rest t]> p ++ [Goroutine body t]) c
                  (tr ++ [EvGo i (length p) t]))
  | step_send p K b free sl tr i msg rest t :
      p !! i = Some (Goroutine (Send msg :: rest) t) →
      step (State p (Channel K b (free :: sl)) tr) (Local i)
           (State (<[i := Goroutine rest (Z.max t free)]> p)
                  (Channel K (b ++ [(msg, Z.max t free)]) sl)
                  (tr ++ [EvSend i msg (Z.max t free)]))
  | step_recv p K msg sent b sl tr i rest t :
      p !! i = Some (Goroutine (RecvPrintln :: rest) t) →
      step (State p (Channel K ((msg, sent) :: b) sl) tr) (Local i)
           (State (<[i := Goroutine (Println msg :: rest) (Z.max t sent)]> p)
                  (Channel K b (sl ++ [Z.max t sent]))
                  (tr ++ [EvRecv i msg (Z.max t sent)]))
  | step_rendezvous p b sl tr i j msg ri rj ti tj :
      p !! i = Some (Goroutine (Send msg :: ri) ti) →
      p !! j = Some (Goroutine (RecvPrintln :: rj) tj) →
      step (State p (Channel 0 b sl) tr) (Sync i j)
           (State (<[j := Goroutine (Println msg :: rj) (Z.max ti tj)]>
                     (<[i := Goroutine ri (Z.max ti tj)]> p))
                  (Channel 0 b sl)
                  (tr ++ [EvSend i msg (Z.max ti tj); EvRecv j msg (Z.max ti tj)])).

Lemma exec_step a s s' :
  exec a s = Some s' ↔ exited s = false ∧ step s a s'.
Proof.
  unfold exec. split.
  - destruct (exited s); [done|]. intros H. split; [done|].
    destruct s as [p [K b sl] tr], a as [i|i j]; simpl in H.
    + unfold step_local in H; simpl in H.
      destruct (p !! i) as [[cd t]|] eqn:Hi; [|done]. simpl in H.
      destruct cd as [|[line|d|msg| |body] rest]; try done.
      * inversion H; subst. by constructor.
      * inversion H; subst. by constructor.
      * destruct sl as [|free sl]; [done|]. inversion H; subst. by constructor.
      * destruct b as [|[msg sent] b]; [done|]. inversion H; subst. by constructor.
      * inversion H; subst. by constructor.
    + unfold step_sync in H; simpl in H.
      destruct K; [|done].
      destruct (p !! i) as [[ci ti]|] eqn:Hi; [|done].
      destruct (p !! j) as [[cj tj]|] eqn:Hj; [|done]. simpl in H.
      destruct ci as [|[line|d|msg| |body] ri]; try done.
      destruct cj as [|[line|d|msg'| |body] rj]; try done.
      inversion H; subst. by constructor.
  - intros [-> Hs]. inversion Hs; subst; simpl;
      unfold step_local, step_sync; simpl;
      repeat match goal with H : _ !! _ = Some _ |- _ => rewrite H; clear H end;
      done.
Qed.

Lemma run_app sched1 sched2 s :
  run (sched1 ++ sched2) s = run sched1 s ≫= run sched2.
Proof.
  revert s. induction sched1 as [|a sched1 IH]; intros s; simpl; [done|].
  destruct (exec a s); simpl; [apply IH | done].
Qed.

Lemma reachable_refl s : reachable s s.
Proof. by exists []. Qed.

Lemma reachable_step s0 s a s' :
  reachable s0 s → exec a s = Some s' → reachable s0 s'.
Proof.
  intros [sched Hr] He. exists (sched ++ [a]).
  rewrite run_app, Hr. simpl. by rewrite He.
Qed.

(** Induction over the states an execution goes through. *)
Lemma reachable_ind' s0 (P : state → Prop) :
  P s0 →
  (∀ s a s', reachable s0 s → P s → exited s = false → step s a s' → P s') →
  ∀ s, reachable s0 s → P s.
Proof.
  intros H0 Hstep s [sched Hr]. revert s Hr.
  induction sched as [|a sched IH] using rev_ind; intros s Hr.
  - simpl in Hr. by inversion Hr; subst.
  - rewrite run_app in Hr.
    destruct (run sched s0) as [s1|] eqn:H1; [|done]. simpl in Hr.
    destruct (exec a s1) as [s2|] eqn:H2; [|done]. inversion Hr; subst.
    apply exec_step in H2 as [Hex Hs].
    eapply Hstep; [by exists sched | by apply IH | done | done].
Qed.

(** ** Facts that hold of every program of the fragment *)

(** A bound on the steps a program has left: every statement is one step,
    a receive two (the receive, then the print), and a [go] also carries
    the steps of the goroutine it starts. *)
Fixpoint weight (i : instr) : nat :=
  match i with
  | Go body => S (sum_list_with weight body)
  | RecvPrintln => 2
  | _ => 1
  end.

Definition code_weight (c : list instr) : nat := sum_list_with weight c.

Definition fuel (s : state) : nat :=
  sum_list_with (λ g, code_weight (code g)) (pool s).

Lemma code_weight_cons x c : code_weight (x :: c) = weight x + code_weight c.
Proof. done. Qed.

Lemma weight_Go body : weight (Go body) = S (code_weight body).
Proof. done. Qed.

Lemma sum_list_with_insert (f : goroutine → nat) (p : list goroutine) i g g' :
  p !! i = Some g →
  sum_list_with f (<[i := g']> p) + f g = sum_list_with f p + f g'.
Proof.
  revert i. induction p as [|x p IH]; intros [|i] H; simplify_eq/=; [lia|].
  specialize (IH _ H). lia.
Qed.

Lemma step_fuel s a s' : step s a s' → fuel s' < fuel s.
Proof.
  unfold fuel. destruct 1; cbn [pool].
  1-5: match goal with
       | H : ?p !! ?i = Some ?g |- context [<[?i := ?g']> ?p] =>
           pose proof (sum_list_with_insert (λ x, code_weight (code x)) p i g g' H) as Hs
       end;
       cbn [code] in Hs; rewrite ?code_weight_cons, ?weight_Go in Hs;
       rewrite ?sum_list_with_app; cbn [weight code sum_list_with] in *; lia.
  assert (i ≠ j) as Hij by (intros ->; congruence).
  pose proof (sum_list_with_insert (λ x, code_weight (code x)) _ _ _
                (Goroutine ri (Z.max ti tj)) H) as Hs1.
  assert (<[i:=Goroutine ri (Z.max ti tj)]> p !! j
          = Some (Goroutine (RecvPrintln :: rj) tj)) as Hj
    by (by rewrite list_lookup_insert_ne).
  pose proof (sum_list_with_insert (λ x, code_weight (code x)) _ _ _
                (Goroutine (Println msg :: rj) (Z.max ti tj)) Hj) as Hs2.
  cbn [code] in Hs1, Hs2.
  repeat rewrite code_weight_cons in Hs1. repeat rewrite code_weight_cons in Hs2.
  cbn [weight] in *. lia.
Qed.

(** No execution is longer than the fuel of the state it starts from. *)
Lemma run_bounded sched s s' :
  run sched s = Some s' → length sched + fuel s' ≤ fuel s.
Proof.
  revert s. induction sched as [|a sched IH]; intros s H; simpl in *.
  - inversion H; subst. lia.
  - destruct (exec a s) as [s1|] eqn:He; [|done].
    apply exec_step in He as [_ Hs]. apply step_fuel in Hs.
    apply IH in H. lia.
Qed.

(** The channel never holds more than its capacity: queued messages and
    free slots add up to [cap]. *)
Definition chan_ok (c : channel) : Prop :=
  length (buf c) + length (slots c) = cap c.

Lemma step_chan s a s' :
  step s a s' → cap (chan s') = cap (chan s) ∧ (chan_ok (chan s) → chan_ok (chan s')).
Proof.
  unfold chan_ok. destruct 1; simpl; (split; [done|]);
    rewrite ?length_app; simpl; lia.
Qed.

Lemma reachable_chan K prog s :
  reachable (init K prog) s → cap (chan s) = K ∧ chan_ok (chan s).
Proof.
  intros Hr. induction Hr as [|s a s' _ [IH1 IH2] _ Hs] using reachable_ind'.
  - unfold chan_ok. simpl. rewrite length_replicate. done.
  - apply step_chan in Hs as [Hc Hok]. split; [congruence | auto].
Qed.

(** One goroutine per [go] statement run, plus [main]. *)
Lemma step_pool_length s a s' :
  step s a s' →
  length (pool s') + dispatched_count s = length (pool s) + dispatched_count s'.
Proof.
  unfold dispatched_count. destruct 1; simpl;
    rewrite ?omap_app, ?length_app, ?length_insert; simpl; lia.
Qed.

Lemma reachable_pool_length K prog s :
  reachable (init K prog) s → length (pool s) = S (dispatched_count s).
Proof.
  intros Hr. induction Hr as [|s a s' _ IH _ Hs] using reachable_ind'; [done|].
  apply step_pool_length in Hs. lia.
Qed.

(** [enabled] lists exactly the actions that can be run. *)
Lemma exec_enabled a s : is_Some (exec a s) ↔ a ∈ enabled s.
Proof.
  unfold enabled. rewrite list_elem_of_filter. split; [|by intros [? _]].
  intros H. split; [done|]. destruct H as [s' H].
  apply exec_step in H as [_ H]. unfold all_actions.
  rewrite elem_of_app, list_elem_of_fmap.
  inversion H; subst; simpl.
  1-5: left; eexists; split; [done|]; apply elem_of_seq;
       split; [lia|]; simpl; by eapply lookup_lt_Some.
  right. apply list_elem_of_bind. exists i. split.
  - apply list_elem_of_fmap. eexists; split; [done|]. apply elem_of_seq.
    split; [lia|]. simpl. by eapply lookup_lt_Some.
  - apply elem_of_seq. split; [lia|]. simpl. by eapply lookup_lt_Some.
Qed.

Lemma deadlocked_spec s :
  deadlocked s = true ↔ exited s = false ∧ ∀ a, exec a s = None.
Proof.
  unfold deadlocked. rewrite andb_true_iff, negb_true_iff, bool_decide_eq_true.
  split; intros [H1 H2]; (split; [done|]).
  - intros a. destruct (exec a s) eqn:He; [|done].
    assert (a ∈ enabled s) as Hin by (apply exec_enabled; eauto).
    rewrite H2 in Hin. by apply elem_of_nil in Hin.
  - destruct (enabled s) as [|a l] eqn:He; [done|].
    assert (is_Some (exec a s)) as [s' Hs]
      by (apply exec_enabled; rewrite He; left).
    by rewrite H2 in Hs.
Qed.

(** From every state some execution leads to a state in which the program
    has stopped: [main] has returned, or no goroutine can move. *)
Lemma run_to_end s :
  ∃ sched s', run sched s = Some s' ∧ (exited s' = true ∨ deadlocked s' = true).
Proof.
  assert (∀ n s, fuel s < n →
    ∃ sched s', run sched s = Some s' ∧
                (exited s' = true ∨ deadlocked s' = true)) as Hall.
  { clear s. induction n as [|n IH]; intros s Hn; [lia|].
    destruct (exited s) eqn:Hex.
    { exists [], s. split; [done | by left]. }
    destruct (enabled s) as [|a l] eqn:Hen.
    { exists [], s. split; [done|]. right. unfold deadlocked.
      by rewrite Hex, Hen. }
    assert (is_Some (exec a s)) as [s1 H1]
      by (apply exec_enabled; rewrite Hen; left).
    pose proof H1 as Hs. apply exec_step in Hs as [_ Hs].
    apply step_fuel in Hs.
    destruct (IH s1 ltac:(lia)) as (sched & s' & Hrun & Hend).
    exists (a :: sched), s'. split; [|done]. cbn. by rewrite H1. }
  apply (Hall (S (fuel s))). lia.
Qed.

(** ** The downloader seen from above *)

(** For a list of sites and a channel capacity, every state that
    [run_prog sites] reaches is described by a [view]: how far each
    launched [download] is, how many results [main] has pulled, the result
    it has pulled and not yet printed, whether it has returned, its clock
    and the channel.  [concr] gives the machine state of a view, and
    [vstep] the moves between views; [view_complete] and [view_sound] show
    that these are exactly the steps of the machine. *)
Section downloader.

Variable sites : list string.
Variable K : nat.

Record view : Type := View {
  workers : list (nat * Z);   (* per launched site: statements run, clock *)
  got : nat;                  (* results pulled by main *)
  pend : option string;       (* pulled, not yet printed *)
  over : bool;                (* main has returned *)
  mclock : Z;
  vbuf : list (string * Z);
  vslots : list Z
}.

Definition worker (site : string) (w : nat * Z) : goroutine :=
  Goroutine (drop w.1 (download site)) w.2.

(** What [main] has left to run after [n] launches and [r] receives. *)
Definition mcode (n r : nat) (pd : option string) (ov : bool) : list instr :=
  if ov then []
  else launch (drop n sites)
       ++ match pd with Some m => [Println m] | None => [] end
       ++ collect (length sites - r) ++ [Println finished].

Definition main_code (v : view) : list instr :=
  mcode (length (workers v)) (got v) (pend v) (over v).

Arguments mcode : simpl never.
Arguments worker : simpl never.

Definition concr (v : view) (tr : list event) : state :=
  State (Goroutine (main_code v) (mclock v) :: zip_with worker sites (workers v))
        (Channel K (vbuf v) (vslots v)) tr.

Definition view0 : view := View [] 0 None false 0 [] (replicate K 0%Z).

Inductive vstep : view → list event → view → Prop :=
  | vs_launch ws r pd t b sl site :
      sites !! length ws = Some site →
      vstep (View ws r pd false t b sl)
            [EvGo 0 (S (length ws)) t]
            (View (ws ++ [(0, t)]) r pd false t b sl)
  | vs_print ws r m t b sl :
      sites !! length ws = None →
      vstep (View ws r (Some m) false t b sl)
            [EvPrint 0 m t]
            (View ws r None false t b sl)
  | vs_recv ws r t m sent b sl :
      sites !! length ws = None → r < length sites →
      vstep (View ws r None false t ((m, sent) :: b) sl)
            [EvRecv 0 m (Z.max t sent)]
            (View ws (S r) (Some m) false (Z.max t sent) b (sl ++ [Z.max t sent]))
  | vs_finish ws r t b sl :
      sites !! length ws = None → length sites ≤ r →
      vstep (View ws r None false t b sl)
            [EvPrint 0 finished t]
            (View ws r None true t b sl)
  | vs_wprint ws r pd t b sl j site tw :
      sites !! j = Some site → ws !! j = Some (0, tw) →
      vstep (View ws r pd false t b sl)
            [EvPrint (S j) (starting site) tw]
            (View (<[j := (1, tw)]> ws) r pd false t b sl)
  | vs_wsleep ws r pd t b sl j site tw :
      sites !! j = Some site → ws !! j = Some (1, tw) →
      vstep (View ws r pd false t b sl)
            []
            (View (<[j := (2, (tw + Z.max 0 (2 * Second))%Z)]> ws) r pd false t b sl)
  | vs_wsend ws r pd t b free sl j site tw :
      sites !! j = Some site → ws !! j = Some (2, tw) →
      vstep (View ws r pd false t b (free :: sl))
            [EvSend (S j) (done_msg site) (Z.max tw free)]
            (View (<[j := (3, Z.max tw free)]> ws) r pd false t
                  (b ++ [(done_msg site, Z.max tw free)]) sl)
  | vs_sync ws r t b sl j site tw :
      K = 0 →
      sites !! j = Some site → ws !! j = Some (2, tw) →
      sites !! length ws = None → r < length sites →
      vstep (View ws r None false t b sl)
            [EvSend (S j) (done_msg site) (Z.max tw t);
             EvRecv 0 (done_msg site) (Z.max tw t)]
            (View (<[j := (3, Z.max tw t)]> ws) (S r) (Some (done_msg site)) false
                  (Z.max tw t) b sl).

Lemma mcode_launch n r pd site :
  sites !! n = Some site →
  mcode n r pd false = Go (download site) :: mcode (S n) r pd false.
Proof. intros H. unfold mcode. by rewrite (drop_S _ _ _ H). Qed.

Lemma mcode_print n r m :
  sites !! n = None →
  mcode n r (Some m) false = Println m :: mcode n r None false.
Proof.
  intros H. unfold mcode. apply lookup_ge_None in H.
  by rewrite drop_ge by done.
Qed.

Lemma mcode_recv n r :
  sites !! n = None → r < length sites →
  mcode n r None false
  = RecvPrintln :: collect (length sites - S r) ++ [Println finished].
Proof.
  intros H Hr. unfold mcode. apply lookup_ge_None in H.
  rewrite drop_ge by done. simpl.
  replace (length sites - r) with (S (length sites - S r)) by lia. done.
Qed.

Lemma mcode_pend n r m :
  sites !! n = None →
  mcode n (S r) (Some m) false
  = Println m :: collect (length sites - S r) ++ [Println finished].
Proof.
  intros H. unfold mcode. apply lookup_ge_None in H.
  by rewrite drop_ge by done.
Qed.

Lemma mcode_finish n r :
  sites !! n = None → length sites ≤ r →
  mcode n r None false = [Println finished].
Proof.
  intros H Hr. unfold mcode. apply lookup_ge_None in H.
  rewrite drop_ge by done. simpl.
  by replace (length sites - r) with 0 by lia.
Qed.

Lemma exited_concr v tr : exited (concr v tr) = over v.
Proof.
  unfold exited, concr, main_code, mcode; cbn. destruct (over v); [done|].
  destruct (launch _); simpl; [|done].
  destruct (pend v); simpl; [done|].
  by destruct (collect _).
Qed.

Lemma zip_worker_snoc ws w site :
  sites !! length ws = Some site →
  zip_with worker sites (ws ++ [w]) = zip_with worker sites ws ++ [worker site w].
Proof.
  generalize sites. induction ws as [|x ws IH]; intros [|y l] H; simplify_eq/=.
  - by destruct l.
  - f_equal. by apply IH.
Qed.

Lemma zip_worker_insert ws j w site :
  sites !! j = Some site →
  <[j := worker site w]> (zip_with worker sites ws)
  = zip_with worker sites (<[j := w]> ws).
Proof.
  intros H. rewrite insert_zip_with. by rewrite (list_insert_id _ _ _ H).
Qed.

Lemma zip_worker_length ws :
  length ws ≤ length sites → length (zip_with worker sites ws) = length ws.
Proof. intros H. rewrite length_zip_with. lia. Qed.

Lemma mcode_inv n r pd :
  (∃ site, sites !! n = Some site ∧
     mcode n r pd false = Go (download site) :: mcode (S n) r pd false) ∨
  (sites !! n = None ∧ ∃ m, pd = Some m ∧
     mcode n r pd false = Println m :: mcode n r None false) ∨
  (sites !! n = None ∧ pd = None ∧ r < length sites ∧
     mcode n r pd false
     = RecvPrintln :: collect (length sites - S r) ++ [Println finished]) ∨
  (sites !! n = None ∧ pd = None ∧ length sites ≤ r ∧
     mcode n r pd false = [Println finished]).
Proof.
  destruct (sites !! n) as [site|] eqn:Hn.
  - left. exists site. split; [done|]. by apply mcode_launch.
  - right. destruct pd as [m|].
    + left. split; [done|]. exists m. split; [done|]. by apply mcode_print.
    + right. destruct (decide (r < length sites)).
      * left. repeat split; try done. by apply mcode_recv.
      * right. repeat split; try done; [lia|]. apply mcode_finish; [done|lia].
Qed.

Lemma worker_inv site k tw x rest t :
  worker site (k, tw) = Goroutine (x :: rest) t →
  tw = t ∧
  ((k = 0 ∧ x = Println (starting site)
            ∧ rest = [Sleep (2 * Second); Send (done_msg site)]) ∨
   (k = 1 ∧ x = Sleep (2 * Second) ∧ rest = [Send (done_msg site)]) ∨
   (k = 2 ∧ x = Send (done_msg site) ∧ rest = [])).
Proof.
  unfold worker; simpl. destruct k as [|[|[|k]]]; simpl; intros H.
  - inversion H; subst. split; [done|]. by left.
  - inversion H; subst. split; [done|]. right; by left.
  - inversion H; subst. split; [done|]. right; by right.
  - by rewrite drop_nil in H.
Qed.

(** Case analysis on which goroutine of a view makes a step: [main], by
    what it has left to run, or a download, by how far it is. *)
Ltac main_cases H :=
  match type of H with
  | mcode ?n ?r ?pd false = _ =>
      let E := fresh "E" in
      destruct (mcode_inv n r pd)
        as [(?&?&E)|[(?&?&?&E)|[(?&?&?&E)|(?&?&?&E)]]];
      rewrite E in H; clear E; simplify_eq
  end.

Ltac worker_cases H :=
  let Hw := fresh "Hw" in
  apply lookup_zip_with_Some in H as (? & [? ?] & Hw & ? & ?);
  symmetry in Hw;
  apply worker_inv in Hw as (-> & [(->&?&->)|[(->&?&->)|(->&?&->)]]);
  simplify_eq.

Ltac who_moves :=
  repeat match goal with
  | H : (_ :: _) !! ?i = Some _ |- _ => destruct i; simplify_eq/=
  | H : mcode _ _ _ false = _ :: _ |- _ => main_cases H
  | H : zip_with worker _ _ !! _ = Some _ |- _ => worker_cases H
  end.

Ltac pick_vstep :=
  first [ by eapply vs_launch | by eapply vs_print | by eapply vs_recv
        | by eapply vs_finish | by eapply vs_wprint | by eapply vs_wsleep
        | by eapply vs_wsend | by eapply vs_sync ].

(** Every step of the machine from the state of a view is a move of the
    view. *)
Lemma view_complete v tr a s' :
  exited (concr v tr) = false → step (concr v tr) a s' →
  ∃ evs v', vstep v evs v' ∧ s' = concr v' (tr ++ evs).
Proof.
  destruct v as [ws r pd ov t b sl]. rewrite exited_concr; simpl. intros ->.
  unfold concr, main_code; simpl. intros Hs.
  inversion Hs; subst; clear Hs; who_moves;
    (eexists _, (View _ _ _ _ _ _ _); split; [pick_vstep|]);
    cbn [workers got pend over mclock vbuf vslots].
  all: rewrite ?length_insert, ?app_nil_r; try done.
  all: try (by erewrite <- zip_worker_insert).
  - rewrite length_app, Nat.add_1_r. erewrite zip_worker_snoc by done.
    rewrite zip_worker_length; [done|].
    match goal with H : _ !! _ = Some _ |- _ => apply lookup_lt_Some in H end.
    lia.
  - by rewrite mcode_pend.
  - rewrite mcode_pend by done. by erewrite <- zip_worker_insert.
Qed.

Lemma zip_worker_lookup ws j site w :
  sites !! j = Some site → ws !! j = Some w →
  zip_with worker sites ws !! j = Some (worker site w).
Proof. intros H1 H2. apply lookup_zip_with_Some. by eexists _, _. Qed.

(** Every move of a view is a step of the machine. *)
Lemma view_sound v evs v' tr :
  vstep v evs v' → ∃ a, exec a (concr v tr) = Some (concr v' (tr ++ evs)).
Proof.
  intros Hv.
  assert (∃ a, step (concr v tr) a (concr v' (tr ++ evs))) as [a Ha]; last first.
  { exists a. apply exec_step. split; [|done]. rewrite exited_concr.
    by destruct Hv. }
  destruct Hv; unfold concr, main_code;
    cbn [workers got pend over mclock vbuf vslots];
    rewrite ?length_insert.
  - exists (Local 0). rewrite (mcode_launch _ _ _ _ H).
    erewrite zip_worker_snoc by done. rewrite length_app, Nat.add_1_r.
    pose proof (step_go
      (Goroutine (Go (download site) :: mcode (S (length ws)) r pd false) t
       :: zip_with worker sites ws) (Channel K b sl) tr 0 _ _ _ eq_refl) as Hs.
    cbn in Hs. rewrite zip_worker_length in Hs; [exact Hs|].
    apply lookup_lt_Some in H. lia.
  - exists (Local 0). rewrite (mcode_print _ _ _ H).
    exact (step_println (_ :: _) _ tr 0 _ _ _ eq_refl).
  - exists (Local 0). rewrite (mcode_recv _ _ H H0), (mcode_pend _ _ _ H).
    exact (step_recv (_ :: _) K m sent b sl tr 0 _ _ eq_refl).
  - exists (Local 0). rewrite (mcode_finish _ _ H H0).
    exact (step_println (_ :: _) _ tr 0 _ _ _ eq_refl).
  - exists (Local (S j)). erewrite <- zip_worker_insert by done.
    pose proof (zip_worker_lookup _ _ _ _ H H0) as Hl.
    exact (step_println (_ :: _) _ tr (S j) _ _ _ Hl).
  - exists (Local (S j)). erewrite <- zip_worker_insert by done.
    pose proof (zip_worker_lookup _ _ _ _ H H0) as Hl.
    rewrite app_nil_r.
    exact (step_sleep (_ :: _) _ tr (S j) _ _ _ Hl).
  - exists (Local (S j)). erewrite <- zip_worker_insert by done.
    pose proof (zip_worker_lookup _ _ _ _ H H0) as Hl.
    exact (step_send (_ :: _) K b free sl tr (S j) _ _ _ Hl).
  - exists (Sync (S j) 0). erewrite <- zip_worker_insert by done.
    pose proof (zip_worker_lookup _ _ _ _ H0 H1) as Hl.
    rewrite (mcode_recv _ _ H2 H3), (mcode_pend _ _ _ H2).
    pose proof (step_rendezvous (_ :: _) b sl tr (S j) 0 (done_msg site) []
                  (collect (length sites - S r) ++ [Println finished]) tw t
                  Hl eq_refl) as Hs.
    rewrite H. exact Hs.
Qed.

(** The views that the runs of [run_prog sites] go through, with the
    trace so far. *)
Inductive vreach : view → list event → Prop :=
  | vreach_init : vreach view0 []
  | vreach_step v tr evs v' :
      vreach v tr → vstep v evs v' → vreach v' (tr ++ evs).

Definition start : state := init K (run_prog sites).

Lemma start_concr : start = concr view0 [].
Proof.
  unfold start, init, concr, main_code, mcode, run_prog, make_chan; cbn.
  rewrite Nat.sub_0_r. do 2 f_equal. generalize sites. by intros [|? ?].
Qed.

Lemma reach_view s : reachable start s → ∃ v tr, vreach v tr ∧ s = concr v tr.
Proof.
  intros Hr. induction Hr as [|s a s' _ (v & tr & Hv & ->) Hex Hs]
    using reachable_ind'.
  - exists view0, []. split; [constructor | apply start_concr].
  - destruct (view_complete _ _ _ _ Hex Hs) as (evs & v' & Hvs & ->).
    exists v', (tr ++ evs). split; [by econstructor | done].
Qed.

Lemma view_reach v tr : vreach v tr → reachable start (concr v tr).
Proof.
  induction 1 as [|v tr evs v' _ IH Hvs].
  - rewrite <- start_concr. apply reachable_refl.
  - destruct (view_sound _ _ _ tr Hvs) as [a Ha]. by eapply reachable_step.
Qed.

(** ** Invariants of the downloader *)

(** The messages that launched downloads have still to send. *)
Fixpoint unsent (l : list string) (ws : list (nat * Z)) {struct ws}
    : list string :=
  match ws, l with
  | w :: ws', site :: l' =>
      (if decide (w.1 = 3) then [] else [done_msg site]) ++ unsent l' ws'
  | _, _ => []
  end.

Lemma unsent_snoc l ws site t :
  l !! length ws = Some site →
  unsent l (ws ++ [(0, t)]) = unsent l ws ++ [done_msg site].
Proof.
  revert l. induction ws as [|w ws IH]; intros [|x l] H; simplify_eq/=.
  - by destruct l.
  - rewrite (IH _ H). by rewrite app_assoc.
Qed.

Lemma unsent_insert_same l ws j site k t k' t' :
  l !! j = Some site → ws !! j = Some (k, t) → k ≠ 3 → k' ≠ 3 →
  unsent l (<[j := (k', t')]> ws) = unsent l ws.
Proof.
  revert l j. induction ws as [|w ws IH]; intros [|x l] [|j] Hl Hw Hk Hk';
    simplify_eq/=; try done.
  - by rewrite !decide_False.
  - f_equal. by eapply IH.
Qed.

Lemma unsent_insert_sent l ws j site k t t' :
  l !! j = Some site → ws !! j = Some (k, t) → k ≠ 3 →
  unsent l ws ≡ₚ done_msg site :: unsent l (<[j := (3, t')]> ws).
Proof.
  revert l j. induction ws as [|w ws IH]; intros [|x l] [|j] Hl Hw Hk;
    simplify_eq/=; try done.
  - by rewrite decide_False.
  - rewrite (IH _ _ Hl Hw Hk). by rewrite Permutation_middle.
Qed.

Lemma unsent_nil l ws :
  unsent l ws = [] → length ws ≤ length l → Forall (λ w, w.1 = 3) ws.
Proof.
  revert l. induction ws as [|w ws IH]; intros l H Hlen; [constructor|].
  destruct l as [|x l]; simpl in *; [lia|].
  case_decide; [|done]. constructor; [done|]. apply (IH l); [done|lia].
Qed.

Lemma unsent_cons l ws m ms :
  unsent l ws = m :: ms →
  ∃ j site k t, l !! j = Some site ∧ ws !! j = Some (k, t) ∧ k ≠ 3.
Proof.
  revert l. induction ws as [|[k t] ws IH]; intros [|x l] H; simplify_eq/=.
  case_decide as Hk; simpl in *.
  - destruct (IH _ H) as (j&site&k'&t'&?&?&?).
    by exists (S j), site, k', t'.
  - by exists 0, x, k, t.
Qed.

(** Lookups in [sites] as bounds on the index. *)
Ltac bounds :=
  repeat match goal with
  | H : sites !! _ = Some _ |- _ => apply lookup_lt_Some in H
  | H : sites !! _ = None |- _ => apply lookup_ge_None in H
  end.

(** Counting: launches, receives, and what [main] is doing. *)
Lemma vreach_count v tr :
  vreach v tr →
  length (workers v) ≤ length sites ∧
  got v ≤ length sites ∧
  (length (workers v) < length sites →
     got v = 0 ∧ pend v = None ∧ over v = false) ∧
  (over v = true → got v = length sites ∧ pend v = None) ∧
  (is_Some (pend v) → 0 < got v) ∧
  length (omap recv_of tr) = got v ∧
  length (omap go_of tr) = length (workers v).
Proof.
  induction 1 as [|v tr evs v' _ IH Hvs]; [cbn; repeat split; try lia; try done; by intros [? ?]|].
  destruct Hvs; cbn in *;
      rewrite ?omap_app, ?length_app, ?length_insert; cbn;
      bounds; destruct IH as (Hw&Hg&Hl&Ho&Hp&Hr&Hd);
      repeat split; try lia; try done;
      try (intros; exfalso; lia); try (intros [? ?]; done); auto.
  all: try (intros; lia).
  all: intros; by destruct Hl as (?&?&?); [lia|].
Qed.

(** No message is lost or made up: what has been received, what is queued
    and what is still to be sent are the messages of the launched sites. *)
Lemma vreach_msgs v tr :
  vreach v tr →
  omap recv_of tr ++ (vbuf v).*1 ++ unsent sites (workers v)
    ≡ₚ done_msg <$> take (length (workers v)) sites.
Proof.
  induction 1 as [|v tr evs v' _ IH Hvs]; [done|].
  destruct Hvs; cbn in *; rewrite ?omap_app, ?length_insert; cbn;
    rewrite ?app_nil_r; try done.
  - rewrite length_app, Nat.add_1_r. cbn.
    erewrite take_S_r, unsent_snoc by done.
    rewrite fmap_app. cbn. rewrite <- IH. by rewrite !app_assoc.
  - rewrite <- IH. by rewrite <- app_assoc.
  - by erewrite unsent_insert_same by done.
  - by erewrite unsent_insert_same by done.
  - rewrite <- IH. rewrite fmap_app. cbn.
    rewrite (unsent_insert_sent sites ws j site 2 tw (Z.max tw free)) by done.
    by rewrite <- !app_assoc.
  - rewrite <- IH.
    rewrite (unsent_insert_sent sites ws j site 2 tw (Z.max tw t)) by done.
    rewrite <- !app_assoc. cbn. by rewrite !Permutation_middle.
Qed.

Definition worker_time (w : nat * Z) : Prop :=
  (w.1 ≤ 1 ∧ w.2 = 0%Z) ∨ ((w.1 = 2 ∨ w.1 = 3) ∧ w.2 = nap).

(** Clocks: a download is at time 0 until it has slept and at [nap] after;
    [main] is at 0 until its first receive and at [nap] after; every
    message is sent and received at [nap]. *)
Lemma vreach_time v tr :
  vreach v tr →
  Forall worker_time (workers v) ∧
  (got v = 0 → mclock v = 0%Z) ∧
  (0 < got v → mclock v = nap) ∧
  Forall (λ m, m.2 = nap) (vbuf v) ∧
  Forall (λ t, t = 0%Z ∨ t = nap) (vslots v) ∧
  Forall (λ t, t = nap) (omap recv_time_of tr).
Proof.
  induction 1 as [|v tr evs v' Hr IH Hvs].
  { cbn. repeat split; try done; try lia; try constructor.
    apply Forall_replicate. by left. }
  destruct (vreach_count _ _ Hr) as (_&_&Hl&_&_&_&_).
  destruct IH as (Hw&H0&H1&Hb&Hs&Ht).
  assert (0 < nap)%Z as Hnap by (by compute).
  assert (mclock v = 0%Z ∨ mclock v = nap) as Hm
    by (destruct (got v); [left; auto | right; apply H1; lia]).
  destruct Hvs; cbn in *; rewrite ?omap_app; cbn; rewrite ?app_nil_r;
    try (match goal with
         | Hj : _ !! _ = Some _ |- _ =>
             pose proof (Forall_lookup_1 _ _ _ _ Hw Hj) as Hwj;
             unfold worker_time in Hwj; cbn in Hwj
         end).
  - apply lookup_lt_Some in H. destruct Hl as (->&_&_); [done|].
    rewrite H0 by done. repeat split; try done; try lia.
    apply Forall_app. split; [done|]. constructor; [|done].
    left. cbn. split; [lia|done].
  - done.
  - apply Forall_cons in Hb as [Hsent Hb]. cbn in Hsent. subst sent.
    assert (Z.max t nap = nap) as -> by lia.
    repeat split; try done; try lia.
    + apply Forall_app. split; [done|]. constructor; [by right|done].
    + apply Forall_app. split; [done|]. by constructor.
  - done.
  - repeat split; try done. apply Forall_insert; [done|].
    left. cbn. split; [lia|]. destruct Hwj as [[_ ?]|[? _]]; [done|lia].
  - repeat split; try done. apply Forall_insert; [done|].
    right. cbn. split; [by left|].
    destruct Hwj as [[_ ->]|[? _]]; [by compute|lia].
  - assert (tw = nap) as -> by (destruct Hwj as [[? _]|[_ ?]]; [lia|done]).
    apply Forall_cons in Hs as [Hfree Hs].
    assert (Z.max nap free = nap) as -> by lia.
    repeat split; try done.
    + apply Forall_insert; [done|]. right. cbn. split; [by right|done].
    + apply Forall_app. split; [done|]. by constructor.
  - assert (tw = nap) as -> by (destruct Hwj as [[? _]|[_ ?]]; [lia|done]).
    assert (Z.max nap t = nap) as -> by lia.
    repeat split; try done; try lia.
    + apply Forall_insert; [done|]. right. cbn. split; [by right|done].
    + apply Forall_app. split; [done|]. by constructor.
Qed.

(** No result is the closing line. *)
Lemma done_not_finished site : done_msg site ≠ finished.
Proof.
  unfold done_msg, finished. intros H.
  do 24 (destruct site as [|? site]; [done|]; cbn in H;
         try discriminate H; injection H as _ H).
Qed.

(** The closing line has not been written. *)
Definition fin_free (tr : list event) : Prop :=
  ∀ g t, EvPrint g finished t ∉ tr.

Lemma fin_free_app tr evs :
  fin_free tr → Forall (λ e, ∀ g t, e ≠ EvPrint g finished t) evs →
  fin_free (tr ++ evs).
Proof.
  intros H He g t Hin. apply elem_of_app in Hin as [Hin|Hin].
  - by apply (H g t).
  - rewrite Forall_forall in He. by apply (He _ Hin g t).
Qed.

(** What [main] writes: each result right after it is pulled, then the
    closing line, once, as its last step. *)
Lemma vreach_output v tr :
  vreach v tr →
  (∀ m, pend v = Some m →
     (∃ site, m = done_msg site) ∧
     omap recv_of tr = omap (printed_by 0) tr ++ [m]) ∧
  (over v = false → fin_free tr) ∧
  (over v = false → pend v = None →
     omap (printed_by 0) tr = omap recv_of tr) ∧
  (over v = true →
     ∃ tr0 t, tr = tr0 ++ [EvPrint 0 finished t] ∧ fin_free tr0 ∧
       omap (printed_by 0) tr0 = omap recv_of tr0 ∧
       length (omap recv_of tr0) = length sites).
Proof.
  induction 1 as [|v tr evs v' Hr IH Hvs].
  { cbn. repeat split; try done. intros _ g t Hin. by apply elem_of_nil in Hin. }
  destruct (vreach_count _ _ Hr) as (_&Hg&_&_&_&Hn&_).
  pose proof (vreach_msgs _ _ Hr) as Hm.
  destruct IH as (Hp&Hf&Ho&_).
  destruct Hvs; cbn in *; rewrite ?omap_app; cbn; rewrite ?app_nil_r.
  - split_and!; auto; try done.
    intros _. apply fin_free_app; [auto|]. by repeat constructor.
  - destruct (Hp m eq_refl) as [[site ->] Hrecv].
    split_and!; try done.
    + intros _. apply fin_free_app; [auto|]. repeat constructor.
      intros g t' [= _ Hfin _]. by apply done_not_finished in Hfin.
  - assert (∃ site, m = done_msg site) as Hsite.
    { assert (m ∈ done_msg <$> take (length ws) sites) as Hin.
      { rewrite <- Hm. cbn. rewrite !elem_of_app, elem_of_cons. auto. }
      apply list_elem_of_fmap in Hin as (site & -> & _). by exists site. }
    split_and!; try done.
    + intros ? [= <-]. split; [done|]. by rewrite Ho.
    + intros _. apply fin_free_app; [auto|]. by repeat constructor.
  - split_and!; try done. intros _. exists tr, t.
    split_and!; auto. lia.
  - split_and!; auto; try done.
    intros _. apply fin_free_app; [auto|]. repeat constructor.
    intros g t' Hfin. discriminate Hfin.
  - split_and!; auto; done.
  - split_and!; auto; try done.
    intros _. apply fin_free_app; [auto|]. by repeat constructor.
  - split_and!; try done.
    + intros ? [= <-]. split; [by exists site|]. by rewrite Ho.
    + intros _. apply fin_free_app; [auto|]. by repeat constructor.
Qed.

(** What the download of the [j]-th site has sent when its state is [w]. *)
Definition has_sent (j : nat) (ws : list (nat * Z)) : list string :=
  match sites !! j, ws !! j with
  | Some site, Some w => if decide (w.1 = 3) then [done_msg site] else []
  | _, _ => []
  end.

Lemma has_sent_snoc i ws t :
  has_sent i (ws ++ [(0, t)]) = has_sent i ws.
Proof.
  unfold has_sent. destruct (sites !! i); [|done].
  destruct (decide (i < length ws)).
  - by rewrite lookup_app_l.
  - rewrite lookup_app_r, (lookup_ge_None_2 ws) by lia.
    by destruct (i - length ws) as [|[|?]].
Qed.

Lemma has_sent_insert_same i ws j k t k' t' :
  ws !! j = Some (k, t) → k ≠ 3 → k' ≠ 3 →
  has_sent i (<[j := (k', t')]> ws) = has_sent i ws.
Proof.
  intros Hj Hk Hk'. unfold has_sent. destruct (sites !! i); [|done].
  destruct (decide (j = i)) as [->|].
  - rewrite list_lookup_insert_eq by (by eapply lookup_lt_Some).
    rewrite Hj. cbn. by rewrite !decide_False.
  - by rewrite list_lookup_insert_ne.
Qed.

Lemma has_sent_insert_sent i ws j site k t t' :
  sites !! j = Some site → ws !! j = Some (k, t) → k ≠ 3 →
  has_sent i (<[j := (3, t')]> ws)
  = has_sent i ws ++ (if decide (S j = S i) then [done_msg site] else []).
Proof.
  intros Hs Hj Hk. unfold has_sent.
  destruct (decide (j = i)) as [->|].
  - rewrite list_lookup_insert_eq by (by eapply lookup_lt_Some).
    rewrite Hs, Hj. cbn. repeat case_decide; by simplify_eq.
  - rewrite list_lookup_insert_ne by done.
    rewrite decide_False by lia. by rewrite app_nil_r.
Qed.

(** [main] sends nothing, and a download sends its one message as its last
    statement. *)
Lemma vreach_sends v tr :
  vreach v tr →
  omap (sent_by 0) tr = [] ∧
  ∀ j, omap (sent_by (S j)) tr = has_sent j (workers v).
Proof.
  induction 1 as [|v tr evs v' Hr IH Hvs].
  { split; [done|]. intros j. unfold has_sent. cbn. by destruct (sites !! j). }
  destruct IH as (IH0&IH).
  destruct Hvs; cbn in *; rewrite ?omap_app; cbn; rewrite ?app_nil_r;
    (split; [done|]); intros i; rewrite ?omap_app, ?IH; cbn;
    rewrite ?app_nil_r.
  - by rewrite has_sent_snoc.
  - done.
  - done.
  - done.
  - by erewrite has_sent_insert_same.
  - by erewrite has_sent_insert_same.
  - erewrite has_sent_insert_sent by done. f_equal. by case_decide.
  - erewrite has_sent_insert_sent by done. f_equal. by case_decide.
Qed.

Lemma vreach_chan v tr :
  vreach v tr → length (vbuf v) + length (vslots v) = K.
Proof.
  intros H. apply view_reach in H.
  by destruct (reachable_chan _ _ _ H) as [_ Hok].
Qed.

(** Until [main] has returned, some goroutine can move: the downloader
    does not deadlock. *)
Lemma vreach_progress v tr :
  vreach v tr → over v = false → ∃ evs v', vstep v evs v'.
Proof.
  intros Hr Hov.
  destruct (vreach_count _ _ Hr) as (Hlen&_&_&_&_&Hn&_).
  pose proof (vreach_msgs _ _ Hr) as Hm.
  destruct (vreach_time _ _ Hr) as (Hw&_).
  pose proof (vreach_chan _ _ Hr) as Hch.
  destruct v as [ws r pd ov t b sl]; cbn in *; subst ov.
  destruct (sites !! length ws) as [site|] eqn:Hs.
  { eexists _, _. by eapply vs_launch. }
  destruct pd as [m|].
  { eexists _, _. by eapply vs_print. }
  destruct (decide (r < length sites)) as [Hlt|]; last first.
  { eexists _, _. eapply vs_finish; [done|lia]. }
  destruct b as [|[m sent] b].
  2: { eexists _, _. by eapply vs_recv. }
  destruct (unsent sites ws) as [|m ms] eqn:Hu.
  { apply Permutation_length in Hm.
    rewrite !length_app, !length_fmap, length_take in Hm. cbn in Hm.
    apply lookup_ge_None in Hs. lia. }
  apply unsent_cons in Hu as (j&site&k&tw&Hsite&Hj&Hk).
  pose proof (Forall_lookup_1 _ _ _ _ Hw Hj) as Hwj.
  unfold worker_time in Hwj; cbn in Hwj.
  assert (k = 0 ∨ k = 1 ∨ k = 2) as [->|[->| ->]] by lia.
  - eexists _, _. by eapply vs_wprint.
  - eexists _, _. by eapply vs_wsleep.
  - destruct sl as [|free sl].
    + eexists _, _. eapply vs_sync; try done; cbn in Hch; lia.
    + eexists _, _. by eapply vs_wsend.
Qed.

Lemma run_progress s :
  reachable start s → exited s = false → ∃ a s', exec a s = Some s'.
Proof.
  intros Hr Hex. destruct (reach_view _ Hr) as (v & tr & Hv & ->).
  rewrite exited_concr in Hex.
  destruct (vreach_progress _ _ Hv Hex) as (evs & v' & Hvs).
  destruct (view_sound _ _ _ tr Hvs) as [a Ha]. eauto.
Qed.

Lemma run_no_deadlock s : reachable start s → deadlocked s = false.
Proof.
  intros Hr. destruct (deadlocked s) eqn:Hd; [|done].
  apply deadlocked_spec in Hd as [Hex Hno].
  destruct (run_progress _ Hr Hex) as (a & s' & Ha). by rewrite Hno in Ha.
Qed.


(** When [main] has returned: every site was launched, every download has
    run to its end, the channel is empty and each message was received. *)
Lemma vreach_exit v tr :
  vreach v tr → over v = true →
  length (workers v) = length sites ∧
  got v = length sites ∧
  Forall (λ w, w.1 = 3) (workers v) ∧
  vbuf v = [] ∧
  omap recv_of tr ≡ₚ done_msg <$> sites.
Proof.
  intros Hv Hex.
  destruct (vreach_count _ _ Hv) as (Hlen&_&Hl&Ho&_&Hn&_).
  pose proof (vreach_msgs _ _ Hv) as Hm.
  destruct (Ho Hex) as [Hg _].
  assert (length (workers v) = length sites) as Hw.
  { destruct (decide (length (workers v) < length sites)) as [Hlt|]; [|lia].
    destruct (Hl Hlt) as (_&_&?). congruence. }
  rewrite Hw, firstn_all in Hm.
  assert ((vbuf v).*1 ++ unsent sites (workers v) = []) as Hnil.
  { apply Permutation_length in Hm.
    rewrite length_app, length_fmap in Hm. apply nil_length_inv. lia. }
  apply app_eq_nil in Hnil as [Hb Hu].
  rewrite Hb, Hu, app_nil_r in Hm. split_and!; try done.
  - apply (unsent_nil sites); [done|lia].
  - by apply fmap_nil_inv in Hb.
Qed.

End downloader.

(** ** Facts about results, programs and schedules *)

Lemma substring_prefix (s t : string) :
  String.substring 0 (String.length s) (s +:+ t) = s.
Proof.
  induction s as [|a s IH]; simpl; [by destruct t | by rewrite IH].
Qed.

Lemma length_append (s t : string) :
  String.length (s +:+ t) = String.length s + String.length t.
Proof. induction s as [|a s IH]; simpl; [done | by rewrite IH]. Qed.

Lemma result_key_done site : result_key (done_msg site) = site.
Proof.
  unfold result_key, done_msg. rewrite length_append. simpl.
  replace (String.length site + 9 - 9) with (String.length site) by lia.
  apply substring_prefix.
Qed.

Lemma main_run_prog : main = run_prog the_sites.
Proof. reflexivity. Qed.

Lemma run_reachable sched s0 s : run sched s0 = Some s → reachable s0 s.
Proof. intros H. by exists sched. Qed.

(** The downloader for [n] sites takes at most [6 * n + 1] steps: four per
    download (the launch and its three statements), two per receive, and
    the closing line. *)
Lemma fuel_start sites K : fuel (init K (run_prog sites)) = 6 * length sites + 1.
Proof.
  unfold fuel, init, run_prog, code_weight, launch, collect; cbn.
  rewrite !sum_list_with_app, Nat.add_0_r. cbn.
  assert (sum_list_with weight ((λ site, Go (download site)) <$> sites)
          = 4 * length sites) as ->
    by (induction sites as [|x l IH]; [done | cbn in *; lia]).
  assert (sum_list_with weight (replicate (length sites) RecvPrintln)
          = 2 * length sites) as ->
    by (induction (length sites) as [|n IH]; [done | cbn in *; lia]).
  lia.
Qed.

(** Every execution of the downloader can be continued to the return of
    [main]. *)
Lemma run_completes sites K s :
  reachable (init K (run_prog sites)) s →
  ∃ sched' s', run sched' s = Some s' ∧ exited s' = true ∧
               reachable (init K (run_prog sites)) s'.
Proof.
  intros [sched Hrun].
  destruct (run_to_end s) as (sched' & s' & Hrun' & Hend).
  assert (reachable (init K (run_prog sites)) s') as Hre.
  { exists (sched ++ sched'). by rewrite run_app, Hrun. }
  exists sched', s'. split_and!; try done.
  destruct Hend as [Hex|Hd]; [done|].
  by rewrite (run_no_deadlock sites K s' Hre) in Hd.
Qed.

(** The goroutine of a download has returned only when it has sent the
    message of its site, at two seconds. *)
Lemma returned_sent sites K s j site t :
  reachable (init K (run_prog sites)) s →
  sites !! j = Some site →
  pool s !! S j = Some (Goroutine [] t) →
  t = (2 * Second)%Z ∧ omap (sent_by (S j)) (trace s) = [done_msg site].
Proof.
  intros Hre Hj Hp.
  destruct (reach_view sites K _ Hre) as (v & tr & Hv & ->).
  destruct (vreach_sends _ _ _ _ Hv) as [_ Hs].
  destruct (vreach_time _ _ _ _ Hv) as (Hw&_).
  cbn in Hp. apply lookup_zip_with_Some in Hp as (x & [k tw] & Hg & Hx & Hk).
  assert (x = site) as -> by congruence.
  pose proof (Forall_lookup_1 _ _ _ _ Hw Hk) as Ht.
  unfold worker_time in Ht. cbn in Ht.
  injection Hg as Hc <-.
  assert (k = 3) as ->.
  { apply (f_equal length) in Hc. rewrite length_drop in Hc. cbn in Hc. lia. }
  split; [destruct Ht as [[? _]|[_ ?]]; [lia|done]|].
  cbn. rewrite Hs. unfold has_sent. rewrite Hj, Hk. cbn. by rewrite decide_True.
Qed.

(** When [main] has returned every download has returned. *)
Lemma exit_returned sites K s j site :
  reachable (init K (run_prog sites)) s →
  exited s = true →
  sites !! j = Some site →
  pool s !! S j = Some (Goroutine [] (2 * Second)).
Proof.
  intros Hre Hex Hj.
  destruct (reach_view sites K _ Hre) as (v & tr & Hv & ->).
  rewrite exited_concr in Hex.
  destruct (vreach_time _ _ _ _ Hv) as (Hw&_).
  destruct (vreach_exit _ _ _ _ Hv Hex) as (Hlen&_&Hall&_).
  destruct (lookup_lt_is_Some_2 (workers v) j) as [[k t] Hk].
  { rewrite Hlen. by eapply lookup_lt_Some. }
  pose proof (Forall_lookup_1 _ _ _ _ Hall Hk) as H3.
  pose proof (Forall_lookup_1 _ _ _ _ Hw Hk) as Ht.
  unfold worker_time in Ht. cbn in H3, Ht. subst k.
  assert (t = nap) as -> by (destruct Ht as [[? _]|[_ ?]]; [lia|done]).
  exact (zip_worker_lookup sites (workers v) j site (3, nap) Hj Hk).
Qed.

(** [main] returns at two seconds. *)
Lemma exit_time sites K s :
  reachable (init K (run_prog sites)) s →
  exited s = true → sites ≠ [] → now s = (2 * Second)%Z.
Proof.
  intros Hre Hex Hne.
  destruct (reach_view sites K _ Hre) as (v & tr & Hv & ->).
  rewrite exited_concr in Hex.
  destruct (vreach_exit _ _ _ _ Hv Hex) as (_&Hg&_).
  destruct (vreach_time _ _ _ _ Hv) as (_&_&Hnap&_).
  assert (0 < length sites) as Hpos by (destruct sites; [done | cbn; lia]).
  unfold now; cbn. by rewrite Hnap by lia.
Qed.


(** Every order of arrival happens in some execution of [main], and the
    collector takes the results in that order. *)
Lemma main_every_order order :
  order ≡ₚ the_sites →
  ∃ s, run (arrival_sched order) (init 0 main) = Some s ∧
       exited s = true ∧ received s = done_msg <$> order.
Proof.
  intros Hp. symmetry in Hp. apply permutations_Permutation in Hp.
  vm_compute in Hp.
  repeat (apply elem_of_cons in Hp as [->|Hp]);
    [ eexists; split; [vm_compute; reflexivity|];
      split; vm_compute; reflexivity .. | ].
  by apply elem_of_nil in Hp.
Qed.

(** ** The claims *)

(** C1.  Every execution of [main] takes at most 19 steps and can go on
    until [main] has returned; when [main] has returned, the values
    received are "Google.com is done!", "Amazon.com is done!" and
    "Github.com is done!", each once, in some order, and [main] has written
    them in the order received, followed by the closing line. *)
Theorem main_delivers sched s :
  run sched (init 0 main) = Some s →
  length sched ≤ 19 ∧
  (exited s = false → ∃ a s', exec a s = Some s') ∧
  (exited s = true →
     received s ≡ₚ
       ["Google.com is done!"; "Amazon.com is done!"; "Github.com is done!"] ∧
     main_output s = received s ++ [finished]).
Proof.
  intros Hrun. split_and!.
  - apply run_bounded in Hrun. change (fuel (init 0 main)) with 19 in Hrun. lia.
  - intros Hex. eapply (run_progress the_sites 0); [|done].
    by apply run_reachable in Hrun.
  - intros Hex. apply run_reachable in Hrun.
    destruct (reach_view the_sites 0 _ Hrun) as (v & tr & Hv & ->).
    rewrite exited_concr in Hex.
    destruct (vreach_exit _ _ _ _ Hv Hex) as (_&_&_&_&Hm).
    destruct (vreach_output _ _ _ _ Hv) as (_&_&_&Ho).
    destruct (Ho Hex) as (tr0 & t & -> & _ & Hout & _).
    split; [done|].
    unfold main_output, received; cbn. rewrite !omap_app. cbn.
    by rewrite Hout, app_nil_r.
Qed.

Lemma main_delivers_witness :
  ∃ s, run demo_sched (init 0 main) = Some s ∧
       received s ≡ₚ
         ["Google.com is done!"; "Amazon.com is done!"; "Github.com is done!"] ∧
       main_output s
       = ["Amazon.com is done!"; "Google.com is done!"; "Github.com is done!";
          "All downloads finished!"].
Proof.
  eexists. split; [vm_compute; reflexivity|].
  edestruct (main_delivers demo_sched) as (_ & _ & H);
    [vm_compute; reflexivity|].
  destruct (H eq_refl) as [H1 H2]. split; [exact H1 | exact H2].
Defined.

(** C2.  No loss: for every list of sites and every channel capacity,
    every execution of the downloader ends (it has at most [6 * n + 1]
    steps and can go on until [main] has returned), and when [main] has
    returned the keys of the results received are the sites submitted, each
    as often as it was submitted. *)
Theorem no_loss sites K sched s :
  run sched (init K (run_prog sites)) = Some s →
  length sched ≤ 6 * length sites + 1 ∧
  (exited s = false → ∃ a s', exec a s = Some s') ∧
  (exited s = true → result_key <$> received s ≡ₚ sites).
Proof.
  intros Hrun. split_and!.
  { apply run_bounded in Hrun. rewrite fuel_start in Hrun. lia. }
  { intros Hex. eapply run_progress; [|done]. by eapply run_reachable. }
  intros Hex. apply run_reachable in Hrun.
  destruct (reach_view sites K _ Hrun) as (v & tr & Hv & ->).
  rewrite exited_concr in Hex.
  destruct (vreach_exit _ _ _ _ Hv Hex) as (_&_&_&_&Hm).
  unfold received; cbn. rewrite Hm, <- list_fmap_compose.
  clear. induction sites as [|site l IH]; [done|].
  cbn. by rewrite result_key_done, IH.
Qed.

Lemma no_loss_witness :
  ∃ s, run demo_sched (init 0 main) = Some s ∧
       result_key <$> received s ≡ₚ ["Google.com"; "Amazon.com"; "Github.com"].
Proof.
  eexists. split; [vm_compute; reflexivity|].
  edestruct (no_loss the_sites 0 demo_sched) as (_ & _ & H);
    [vm_compute; reflexivity|].
  apply H. reflexivity.
Defined.

(** C3.  The collector pulls as often as there are sites, whatever the
    order in which the downloads arrive: every execution is finite, no
    execution has more pulls than sites, until [main] has returned the
    execution can go on, and [main] returns only after exactly as many
    pulls as sites, with the results of all of them. *)
Theorem collector_pulls sites K sched s :
  run sched (init K (run_prog sites)) = Some s →
  length sched ≤ 6 * length sites + 1 ∧
  received_count s ≤ length sites ∧
  (exited s = false → ∃ a s', exec a s = Some s') ∧
  (exited s = true →
     received_count s = length sites ∧ received s ≡ₚ done_msg <$> sites).
Proof.
  intros Hrun. split.
  { apply run_bounded in Hrun. rewrite fuel_start in Hrun. lia. }
  apply run_reachable in Hrun. split_and!.
  - destruct (reach_view sites K _ Hrun) as (v & tr & Hv & ->).
    destruct (vreach_count _ _ _ _ Hv) as (_&Hg&_&_&_&Hn&_).
    unfold received_count, received; cbn. lia.
  - intros Hex. by eapply run_progress.
  - intros Hex. destruct (reach_view sites K _ Hrun) as (v & tr & Hv & ->).
    rewrite exited_concr in Hex.
    destruct (vreach_count _ _ _ _ Hv) as (_&_&_&_&_&Hn&_).
    destruct (vreach_exit _ _ _ _ Hv Hex) as (_&Hg&_&_&Hm).
    unfold received_count, received; cbn. split; [lia|done].
Qed.

Lemma collector_pulls_witness :
  ∃ s, run demo_sched (init 0 main) = Some s ∧ received_count s = 3.
Proof.
  eexists. split; [vm_compute; reflexivity|].
  edestruct (collector_pulls the_sites 0 demo_sched) as (_ & _ & _ & H);
    [vm_compute; reflexivity|].
  apply H. reflexivity.
Defined.

(** C4, counterexample.  A caller that allows one second: in this
    execution of [main] no result has arrived within the second, fewer than
    three, and the run does not fail: [main] returns normally at two
    seconds with the three results. *)
Lemma timeout_not_raised :
  ∃ s, run demo_sched (init 0 main) = Some s ∧
       arrived_by (1 * Second) s = 0 ∧
       outcome_of s
       = Completed ["Amazon.com is done!"; "Google.com is done!";
                    "Github.com is done!"] ∧
       now s = (2 * Second)%Z.
Proof.
  eexists. split; [vm_compute; reflexivity|].
  split; [vm_compute; reflexivity|].
  split; vm_compute; reflexivity.
Qed.

(** C4, as the code has it.  The collector has no deadline.  No result
    arrives before the two seconds of a download are over, so within any
    shorter time [T] none has arrived; the run never stops for that: no
    state of any execution is a deadlock, [main] can always go on, and it
    returns only with the results of all sites. *)
Theorem collector_waits sites K sched s T :
  run sched (init K (run_prog sites)) = Some s →
  (T < 2 * Second)%Z →
  arrived_by T s = 0 ∧
  outcome_of s ≠ Deadlock ∧
  (∀ results, outcome_of s = Completed results →
     length results = length sites).
Proof.
  intros Hrun HT. apply run_reachable in Hrun.
  pose proof (run_no_deadlock _ _ _ Hrun) as Hnd.
  unfold outcome_of. rewrite Hnd.
  destruct (reach_view sites K _ Hrun) as (v & tr & Hv & ->).
  rewrite exited_concr.
  destruct (vreach_time _ _ _ _ Hv) as (_&_&_&_&_&Ht).
  destruct (vreach_count _ _ _ _ Hv) as (_&_&_&_&_&Hn&_).
  split_and!.
  - unfold arrived_by; cbn. apply length_zero_iff_nil.
    induction Ht as [|t l Hnap _ IH]; [done|].
    rewrite filter_cons_False; [done|]. unfold nap in Hnap. lia.
  - by destruct (over v).
  - intros results. destruct (over v) eqn:Hov; [|done].
    intros [= <-]. destruct (vreach_exit _ _ _ _ Hv Hov) as (_&Hg&_).
    unfold received; cbn. lia.
Qed.

Lemma collector_waits_witness :
  ∃ s, run [Local 0; Local 0; Local 0; Local 1; Local 1] (init 0 main) = Some s ∧
       arrived_by 1000000000 s = 0 ∧ outcome_of s ≠ Deadlock.
Proof.
  eexists. split; [vm_compute; reflexivity|].
  match goal with
  | |- arrived_by _ ?s = 0 ∧ _ =>
      edestruct (collector_waits the_sites 0
                   [Local 0; Local 0; Local 0; Local 1; Local 1] s 1000000000)
        as (H1 & H2 & _); [vm_compute; reflexivity | reflexivity |]
  end.
  split; [exact H1 | exact H2].
Defined.

(** C6.  RunState: in every state of every execution there is one
    goroutine per task dispatched besides [main], the results received are
    at most the tasks dispatched, and they are as many when [main] has
    returned. *)
Theorem runstate_invariant sites K sched s :
  run sched (init K (run_prog sites)) = Some s →
  length (pool s) = S (dispatched_count s) ∧
  received_count s ≤ dispatched_count s ∧
  (exited s = true → received_count s = dispatched_count s).
Proof.
  intros Hrun. apply run_reachable in Hrun.
  split; [by eapply reachable_pool_length|].
  destruct (reach_view sites K _ Hrun) as (v & tr & Hv & ->).
  destruct (vreach_count _ _ _ _ Hv) as (Hlen&Hg&Hl&_&_&Hn&Hd).
  rewrite exited_concr.
  unfold received_count, dispatched_count, received; cbn. split.
  - destruct (decide (length (workers v) < length sites)) as [Hlt|]; [|lia].
    destruct (Hl Hlt) as (?&_). lia.
  - intros Hex. destruct (vreach_exit _ _ _ _ Hv Hex) as (?&?&_). lia.
Qed.

Lemma runstate_invariant_witness :
  ∃ s, run demo_sched (init 0 main) = Some s ∧
       received_count s ≤ dispatched_count s ∧
       received_count s = dispatched_count s.
Proof.
  eexists. split; [vm_compute; reflexivity|].
  edestruct (runstate_invariant the_sites 0 demo_sched) as (_ & H1 & H2);
    [vm_compute; reflexivity|].
  split; [exact H1 | apply H2; reflexivity].
Defined.



(** C8.  Speed-up: with time advancing only in [time.Sleep] and while a
    goroutine waits for its channel partner, every execution of the
    downloader completes: it has at most [6 * n + 1] steps, it can go on
    until [main] has returned, and it can be continued to the return of
    [main].  [main] returns at the time one download takes, two seconds,
    however many sites there are, and not at the sum of the download
    times. *)
Theorem concurrent_time sites K sched s :
  run sched (init K (run_prog sites)) = Some s →
  sites ≠ [] →
  length sched ≤ 6 * length sites + 1 ∧
  (exited s = false → ∃ a s', exec a s = Some s') ∧
  (∃ sched' s', run sched' s = Some s' ∧ exited s' = true ∧
                now s' = (2 * Second)%Z) ∧
  (exited s = true →
     now s = (2 * Second)%Z ∧
     (1 < length sites → (now s < Z.of_nat (length sites) * (2 * Second))%Z)).
Proof.
  intros Hrun Hne. pose proof (run_reachable _ _ _ Hrun) as Hre. split_and!.
  - apply run_bounded in Hrun. rewrite fuel_start in Hrun. lia.
  - intros Hex. by eapply run_progress.
  - destruct (run_completes sites K s Hre) as (sched' & s' & Hrun' & Hex & Hre').
    exists sched', s'. split_and!; try done. by eapply exit_time.
  - intros Hex. rewrite (exit_time sites K s Hre Hex Hne).
    split; [done|]. unfold Second. lia.
Qed.

Lemma concurrent_time_witness :
  ∃ s, run demo_sched (init 0 main) = Some s ∧
       exited s = true ∧
       now s = 2000000000%Z ∧ (now s < 6000000000)%Z.
Proof.
  eexists. split; [vm_compute; reflexivity|].
  split; [vm_compute; reflexivity|].
  edestruct (concurrent_time the_sites 0 demo_sched) as (_ & _ & _ & H);
    [vm_compute; reflexivity | discriminate |].
  destruct H as [H1 H2]; [vm_compute; reflexivity|].
  split; [exact H1 | apply H2; cbn; lia].
Defined.

(** C9.  No download can fail: every execution of the downloader can go
    on until [main] has returned (it has at most [6 * n + 1] steps) and
    can be continued to the return of [main], where every download has
    returned and has sent exactly the one message [site + " is done!"] of
    its site.  On the way each launched download has sent nothing yet or
    that one message, it has returned only if it has sent it, and every
    value received is such a message of a submitted site. *)
Theorem download_always_sends sites K sched s :
  run sched (init K (run_prog sites)) = Some s →
  length sched ≤ 6 * length sites + 1 ∧
  (exited s = false → ∃ a s', exec a s = Some s') ∧
  (∃ sched' s', run sched' s = Some s' ∧ exited s' = true ∧
     ∀ j site, sites !! j = Some site →
       pool s' !! S j = Some (Goroutine [] (2 * Second)) ∧
       omap (sent_by (S j)) (trace s') = [done_msg site]) ∧
  (∀ m, m ∈ received s → ∃ site, site ∈ sites ∧ m = done_msg site) ∧
  (∀ j site, sites !! j = Some site →
     (omap (sent_by (S j)) (trace s) = [] ∨
      omap (sent_by (S j)) (trace s) = [done_msg site]) ∧
     (∀ t, pool s !! S j = Some (Goroutine [] t) →
        omap (sent_by (S j)) (trace s) = [done_msg site])) ∧
  (exited s = true → ∀ j site, sites !! j = Some site →
     pool s !! S j = Some (Goroutine [] (2 * Second)) ∧
     omap (sent_by (S j)) (trace s) = [done_msg site]).
Proof.
  intros Hrun. pose proof (run_reachable _ _ _ Hrun) as Hre.
  assert (∀ s1, reachable (init K (run_prog sites)) s1 → exited s1 = true →
            ∀ j site, sites !! j = Some site →
              pool s1 !! S j = Some (Goroutine [] (2 * Second)) ∧
              omap (sent_by (S j)) (trace s1) = [done_msg site]) as Hexit.
  { intros s1 H1 Hex j site Hj.
    pose proof (exit_returned sites K s1 j site H1 Hex Hj) as Hp.
    split; [done|]. by eapply returned_sent. }
  split_and!.
  - apply run_bounded in Hrun. rewrite fuel_start in Hrun. lia.
  - intros Hex. by eapply run_progress.
  - destruct (run_completes sites K s Hre) as (sched' & s' & Hrun' & Hex & Hre').
    exists sched', s'. split_and!; try done. by apply Hexit.
  - destruct (reach_view sites K _ Hre) as (v & tr & Hv & ->).
    pose proof (vreach_msgs _ _ _ _ Hv) as Hm.
    unfold received; cbn. intros m Hin.
    assert (m ∈ done_msg <$> take (length (workers v)) sites) as Hin'.
    { rewrite <- Hm. apply elem_of_app. by left. }
    apply list_elem_of_fmap in Hin' as (site & -> & Hsite).
    exists site. split; [|done]. by eapply subseteq_take.
  - intros j site Hj. split.
    + destruct (reach_view sites K _ Hre) as (v & tr & Hv & ->).
      destruct (vreach_sends _ _ _ _ Hv) as [_ Hs].
      cbn. rewrite Hs. unfold has_sent. rewrite Hj.
      destruct (workers v !! j); [|by left]. case_decide; auto.
    + intros t Hp. by eapply returned_sent.
  - by apply Hexit.
Qed.

Lemma download_always_sends_witness :
  ∃ s, run demo_sched (init 0 main) = Some s ∧
       exited s = true ∧
       omap (sent_by 2) (trace s) = ["Amazon.com is done!"].
Proof.
  eexists. split; [vm_compute; reflexivity|].
  split; [vm_compute; reflexivity|].
  edestruct (download_always_sends the_sites 0 demo_sched)
    as (_ & _ & _ & _ & _ & H); [vm_compute; reflexivity|].
  edestruct (H eq_refl 1 "Amazon.com") as [_ H2]; [reflexivity|]. exact H2.
Defined.

(** C10.  The closing line comes last: in every execution of [main], when
    "All downloads finished!" is written it is [main] that writes it, as
    the last event, and before it three values were received and each was
    written by [main]. *)
Theorem finished_last sched s pre g t post :
  run sched (init 0 main) = Some s →
  trace s = pre ++ EvPrint g finished t :: post →
  g = 0 ∧ post = [] ∧
  length (omap recv_of pre) = 3 ∧
  omap (printed_by 0) pre = omap recv_of pre.
Proof.
  intros Hrun Htr. apply run_reachable in Hrun.
  destruct (reach_view the_sites 0 _ Hrun) as (v & tr & Hv & ->).
  cbn in Htr. subst tr.
  destruct (vreach_output _ _ _ _ Hv) as (_&Hf&_&Ho).
  destruct (over v) eqn:Hov.
  - destruct (Ho eq_refl) as (tr0 & t0 & Heq & Hfree & Hout & Hlen).
    destruct post as [|e post _] using rev_ind.
    + apply app_inj_tail in Heq as [-> [= -> ->]]. done.
    + rewrite app_comm_cons, app_assoc in Heq.
      apply app_inj_tail in Heq as [<- _].
      exfalso. apply (Hfree g t). apply elem_of_app. right. left.
  - exfalso. apply (Hf eq_refl g t). apply elem_of_app. right. left.
Qed.

Lemma finished_last_witness :
  ∃ s, run demo_sched (init 0 main) = Some s ∧
    last (trace s) = Some (EvPrint 0 finished 2000000000) ∧
    length (omap recv_of (removelast (trace s))) = 3 ∧
    omap (printed_by 0) (removelast (trace s))
    = omap recv_of (removelast (trace s)).
Proof.
  eexists. split; [vm_compute; reflexivity|].
  split; [vm_compute; reflexivity|].
  match goal with
  | |- context [removelast (trace ?s)] =>
      destruct (finished_last demo_sched s (removelast (trace s)) 0
                  2000000000 []) as (_ & _ & H3 & H4);
        [vm_compute; reflexivity | vm_compute; reflexivity |]
  end.
  split; [exact H3 | exact H4].
Defined.


(** * The rest of goroutines.go *)

(** ** A goroutine in the background: [sayHello] *)

(** The first program of the article, goroutines.go lines 8-15. *)
Module Hello.

(** [func sayHello()] *)
Definition sayHello : list instr := [Println "Hello!"].

(** [func main()]: [go sayHello()], and the program continues with what
    follows, here the end of [main]. *)
Definition main : list instr := [Go sayHello].

End Hello.

(** The statements at which a goroutine never waits. *)
Definition nonblocking (i : instr) : bool :=
  match i with
  | Println _ | Sleep _ | Go _ => true
  | Send _ | RecvPrintln => false
  end.

Lemma main_finishes c t rest ch tr :
  forallb nonblocking c = true →
  ∃ s', run (replicate (length c) (Local 0))
            (State (Goroutine c t :: rest) ch tr) = Some s' ∧
        exited s' = true ∧
        ∀ i g, rest !! i = Some g → pool s' !! S i = Some g.
Proof.
  revert t rest tr. induction c as [|x c IH]; intros t rest tr Hc.
  { eexists. split; [done|]. split; [done|]. by intros i g Hi. }
  cbn in Hc. apply andb_true_iff in Hc as [Hx Hc].
  destruct x as [line|d|msg| |body]; try done; cbn.
  - destruct (IH t rest (tr ++ [EvPrint 0 line t]) Hc) as (s' & Hr & He & Hp).
    by exists s'.
  - destruct (IH (t + Z.max 0 d)%Z rest tr Hc) as (s' & Hr & He & Hp).
    by exists s'.
  - destruct (IH t (rest ++ [Goroutine body t])
                (tr ++ [EvGo 0 (S (length rest)) t]) Hc)
      as (s' & Hr & He & Hp).
    exists s'. split_and!; try done.
    intros i g Hi. apply Hp. by apply lookup_app_l_Some.
Qed.

Lemma nonblocking_main K prog s :
  forallb nonblocking prog = true →
  reachable (init K prog) s →
  ∃ c t rest, pool s = Goroutine c t :: rest ∧
              forallb nonblocking c = true ∧ length c ≤ length prog.
Proof.
  intros Hp Hr.
  induction Hr as [|s a s' _ (c & t & rest & Hs & Hc & Hl) _ Hst]
    using reachable_ind'.
  { by exists prog, 0%Z, []. }
  destruct Hst; cbn in Hs; subst p;
    repeat match goal with
    | H : (_ :: _) !! ?i = Some _ |- _ => destruct i; simplify_eq/=
    end;
    try (apply andb_true_iff in Hc as [? ?]);
    try done; try (eexists _, _, _; split_and!; [done..| lia]);
    try (eexists _, _, _; split_and!; [done..]).
Qed.

(** X1.  A [main] that only prints, sleeps and launches goroutines, as the
    [main] of [sayHello]: whatever the goroutines do, no execution ends in
    a deadlock, and from every state [main] can run on to its return by
    steps of its own alone, at most as many as it has statements, without
    any goroutine moving: the program does not wait for its goroutines. *)
Theorem launcher_never_waits K prog sched s :
  forallb nonblocking prog = true →
  run sched (init K prog) = Some s →
  outcome_of s ≠ Deadlock ∧
  ∃ n s', n ≤ length prog ∧
    run (replicate n (Local 0)) s = Some s' ∧
    exited s' = true ∧
    ∀ i g, 0 < i → pool s !! i = Some g → pool s' !! i = Some g.
Proof.
  intros Hp Hrun. apply run_reachable in Hrun.
  destruct (nonblocking_main K prog s Hp Hrun) as (c & t & rest & Hs & Hc & Hl).
  destruct s as [p ch tr]; cbn in Hs; subst p.
  destruct (main_finishes c t rest ch tr Hc) as (s' & Hr & He & Hrest).
  set (s0 := State (Goroutine c t :: rest) ch tr) in *.
  split.
  - unfold outcome_of. destruct (exited s0) eqn:Hex; [done|].
    destruct (deadlocked s0) eqn:Hd; [|done].
    apply deadlocked_spec in Hd as [_ Hno].
    destruct c as [|x c]; [by cbn in Hex|].
    cbn [length replicate run] in Hr. by rewrite Hno in Hr.
  - exists (length c), s'. split_and!; try done.
    intros [|i] g Hi Hg; [lia|]. by apply Hrest.
Qed.

Lemma launcher_never_waits_witness :
  ∃ s', run [Local 0] (init 0 Hello.main) = Some s' ∧
        exited s' = true ∧
        outcome_of (init 0 Hello.main) ≠ Deadlock.
Proof.
  eexists. split; [vm_compute; reflexivity|]. split; [reflexivity|].
  edestruct (launcher_never_waits 0 Hello.main [] (init 0 Hello.main))
    as [H _]; [reflexivity | reflexivity | exact H].
Defined.

(** ** The deadlock of the article's word of caution *)

(** Whether a statement sends, itself or in a goroutine it launches. *)
Fixpoint sends (i : instr) : bool :=
  match i with
  | Send _ => true
  | Go body => existsb sends body
  | _ => false
  end.

Definition receives (i : instr) : bool :=
  match i with RecvPrintln => true | _ => false end.

Lemma no_sender_steps K prog s :
  existsb sends prog = false →
  existsb receives prog = true →
  reachable (init K prog) s →
  Forall (λ g, existsb sends (code g) = false) (pool s) ∧
  buf (chan s) = [] ∧
  received s = [] ∧
  ∃ c t rest, pool s = Goroutine c t :: rest ∧ existsb receives c = true.
Proof.
  intros Hns Hrc Hr.
  induction Hr as [|s a s' _ (Hall & Hb & Hrecv & c & t & rest & Hs & Hc) _ Hst]
    using reachable_ind'.
  { split_and!; try done; [by repeat constructor | by exists prog, 0%Z, []]. }
  unfold received in *.
  destruct Hst; cbn in Hs, Hb, Hrecv |- *; subst p;
    try (match goal with
         | H : _ !! _ = Some ?g |- _ =>
             pose proof (Forall_lookup_1 _ _ _ _ Hall H) as Hg; cbn in Hg
         end);
    try apply orb_false_iff in Hg as [Hg1 Hg2];
    try done.
  1-3: split_and!;
       [ try apply Forall_app; try split;
         try (apply Forall_insert; [done|]); try done;
         by repeat constructor
       | done
       | by rewrite ?omap_app, ?Hrecv
       | destruct i; simplify_eq/=; try (by eexists _, _, _) ].
Qed.

(** X2.  The word of caution of the article: a program in which [main]
    has a receive and no goroutine ever sends.  In every execution nothing
    is received and [main] never returns, and every execution can be run
    on to the deadlock that the runtime reports. *)
Theorem receive_without_sender K prog sched s :
  existsb sends prog = false →
  existsb receives prog = true →
  run sched (init K prog) = Some s →
  exited s = false ∧
  received s = [] ∧
  ∃ sched' s', run sched' s = Some s' ∧ outcome_of s' = Deadlock.
Proof.
  intros Hns Hrc Hrun. apply run_reachable in Hrun.
  assert (∀ s1, reachable (init K prog) s1 → exited s1 = false) as Hnever.
  { intros s1 H1.
    destruct (no_sender_steps K prog s1 Hns Hrc H1)
      as (_ & _ & _ & c & t & rest & Hs & Hc).
    unfold exited. rewrite Hs. cbn. by destruct c. }
  destruct (no_sender_steps K prog s Hns Hrc Hrun) as (_ & _ & Hrecv & _).
  split_and!; [by apply Hnever | done |].
  destruct (run_to_end s) as (sched' & s' & Hrun' & Hend).
  exists sched', s'. split; [done|].
  assert (reachable (init K prog) s') as Hr'.
  { destruct Hrun as [sched0 H0]. exists (sched0 ++ sched').
    by rewrite run_app, H0. }
  pose proof (Hnever s' Hr') as Hex. unfold outcome_of. rewrite Hex.
  destruct Hend as [Hend|Hend]; [congruence | by rewrite Hend].
Qed.

Lemma receive_without_sender_witness :
  exited (init 0 [RecvPrintln]) = false ∧
  ∃ sched' s', run sched' (init 0 [RecvPrintln]) = Some s' ∧
               outcome_of s' = Deadlock.
Proof.
  edestruct (receive_without_sender 0 [RecvPrintln] [] (init 0 [RecvPrintln]))
    as (H1 & _ & H2); [reflexivity | reflexivity | reflexivity |].
  split; [exact H1 | exact H2].
Defined.

(** ** What has been sent *)

Definition send_of (e : event) : option string :=
  match e with EvSend _ msg _ => Some msg | _ => None end.

(** The messages sent so far, in the order of the sends. *)
Definition sent (s : state) : list string := omap send_of (trace s).

(** ** The downloader without [go] *)

(** "If we didn't use go" (goroutines.go lines 52-53): [main] calls
    [download(site, c)] itself for each site, one after the other, before
    it receives. *)
Definition seq_prog (sites : list string) : list instr :=
  (sites ≫= download) ++ collect (length sites) ++ [Println finished].

(** A program with one goroutine moves by that goroutine alone. *)
Lemma lone_step g ch tr a s' : step (State [g] ch tr) a s' → a = Local 0.
Proof.
  inversion 1; subst;
    repeat match goal with
    | H : [_] !! ?i = Some _ |- _ => destruct i as [|?]; simplify_eq/=
    end; done.
Qed.





(** ** One goroutine that sends to itself through the buffer *)

(** The time a goroutine sleeps in its statements, the messages it sends
    and the number of its receives. *)
Definition sleep_of (i : instr) : Z :=
  match i with Sleep d => Z.max 0 d | _ => 0%Z end.

Definition sleeps (c : list instr) : Z := foldr (λ i acc, (sleep_of i + acc)%Z) 0%Z c.

Definition msg_of (i : instr) : option string :=
  match i with Send msg => Some msg | _ => None end.

Definition send_msgs (c : list instr) : list string := omap msg_of c.

Definition recv_count (c : list instr) : nat :=
  sum_list_with (λ i, if receives i then 1 else 0) c.

Definition launches (i : instr) : bool :=
  match i with Go _ => true | _ => false end.

(** Every send of the code comes before every receive. *)
Fixpoint sends_first (c : list instr) : bool :=
  match c with
  | [] => true
  | RecvPrintln :: c' => match send_msgs c' with [] => sends_first c' | _ => false end
  | _ :: c' => sends_first c'
  end.

Record lone_inv (K : nat) (prog : list instr) (s : state) : Prop := {
  lone_pool : ∃ c t,
    pool s = [Goroutine c t] ∧
    existsb launches c = false ∧
    sends_first c = true ∧
    (t + sleeps c = sleeps prog)%Z ∧
    Forall (λ x, (x ≤ t)%Z) (slots (chan s)) ∧
    Forall (λ m, (m.2 ≤ t)%Z) (buf (chan s)) ∧
    sent s ++ send_msgs c = send_msgs prog ∧
    sent s = received s ++ (buf (chan s)).*1 ∧
    length (buf (chan s)) + length (send_msgs c) + recv_count prog
    = length (send_msgs prog) + recv_count c
}.

Lemma lone_reachable K prog s :
  existsb launches prog = false →
  sends_first prog = true →
  reachable (init K prog) s →
  lone_inv K prog s.
Proof.
  intros Hgo Hsf Hr.
  induction Hr as [|s a s' _ [(c & t & Hp & Hg & Hf & Ht & Hsl & Hb & Hsent & Hq & Hcnt)]
                     _ Hst] using reachable_ind'.
  { constructor. exists prog, 0%Z. cbn. split_and!; try done; try lia.
    apply Forall_replicate. lia. }
  constructor. destruct s as [p ch tr]. cbn in Hp. subst p.
  pose proof (lone_step _ _ _ _ _ Hst) as ->.
  unfold sent, received in *.
  inversion Hst; subst; simplify_eq/=; rewrite ?omap_app; cbn;
    rewrite ?app_nil_r.
  - exists rest, t0. split_and!; try done; lia.
  - exists rest, (t0 + 0 `max` d)%Z. split_and!; try done.
    + lia.
    + eapply Forall_impl; [done|]. intros; cbn in *; lia.
    + eapply Forall_impl; [done|]. intros; cbn in *; lia.
  - apply Forall_cons in Hsl as [Hfree Hsl].
    replace (t0 `max` free)%Z with t0 by lia.
    exists rest, t0. rewrite <-(assoc_L (++)), length_app, fmap_app. cbn.
    split_and!; try done; try lia.
    + apply Forall_app. split; [done|]. apply Forall_singleton. cbn. lia.
    + by rewrite Hq, <-(assoc_L (++)).
  - apply Forall_cons in Hb as [Hm Hb]. cbn in Hm.
    replace (t0 `max` sent0)%Z with t0 by lia.
    destruct (send_msgs rest) eqn:Hs; [|done].
    exists (Println msg :: rest), t0. unfold send_msgs in *. cbn. rewrite Hs.
    split_and!; try done; try lia.
    + apply Forall_app. split; [done|]. apply Forall_singleton. lia.
    + by rewrite Hq, <-(assoc_L (++)).
    + unfold recv_count in *; cbn in *; lia.
Qed.

(** A goroutine that first sends what it later receives, on a channel with
    room for all of it, runs to its end; it receives the messages in the
    order of the sends, and returns after the sum of its sleeps. *)
Lemma lone_completes K prog s :
  existsb launches prog = false →
  sends_first prog = true →
  length (send_msgs prog) = recv_count prog →
  recv_count prog ≤ K →
  reachable (init K prog) s →
  (exited s = false → is_Some (exec (Local 0) s)) ∧
  (exited s = true → received s = send_msgs prog ∧ now s = sleeps prog).
Proof.
  intros Hgo Hsf Hn HK Hre.
  destruct (lone_reachable K prog s Hgo Hsf Hre)
    as [(c & t & Hp & Hg & Hf & Ht & Hsl & Hb & Hsent & Hfifo & Hcnt)].
  destruct (reachable_chan _ _ _ Hre) as [HcK Hok].
  unfold chan_ok, sent, received, now, exited in *.
  destruct s as [p [K' b sl] tr]. cbn in *. subst p K'. cbn.
  destruct c as [|i rest]; cbn in *.
  - split; [done|]. intros _. rewrite app_nil_r in Hsent.
    destruct b; [|cbn in *; lia]. rewrite app_nil_r in Hfifo.
    split; [congruence|lia].
  - split; [|done]. intros _.
    assert (length (omap send_of tr) + length (send_msgs (i :: rest))
            = length (send_msgs prog)) as Hlen
      by (by rewrite <- Hsent, length_app).
    rewrite Hfifo, length_app, length_fmap in Hlen.
    destruct i; try done; cbn in *.
    + destruct sl; [cbn in *; lia|done].
    + unfold send_msgs in *. destruct (omap msg_of rest); [|done].
      destruct b as [|[m ts] b]; [cbn in *; lia|done].
Qed.

Lemma downloads_shape (sites : list string) c :
  existsb launches ((sites ≫= download) ++ c) = existsb launches c ∧
  sends_first ((sites ≫= download) ++ c) = sends_first c ∧
  send_msgs ((sites ≫= download) ++ c) = (done_msg <$> sites) ++ send_msgs c ∧
  recv_count ((sites ≫= download) ++ c) = recv_count c ∧
  sleeps ((sites ≫= download) ++ c) = (Z.of_nat (length sites) * nap + sleeps c)%Z.
Proof.
  induction sites as [|site sites (IH1 & IH2 & IH3 & IH4 & IH5)]; [done|].
  unfold send_msgs, recv_count, sleeps in *. cbn.
  rewrite IH1, IH2, IH3, IH4, IH5. split_and!; try done.
  unfold nap, Second. lia.
Qed.

Lemma collect_shape n line :
  existsb launches (collect n ++ [Println line]) = false ∧
  sends_first (collect n ++ [Println line]) = true ∧
  send_msgs (collect n ++ [Println line]) = [] ∧
  recv_count (collect n ++ [Println line]) = n ∧
  sleeps (collect n ++ [Println line]) = 0%Z.
Proof.
  induction n as [|n (IH1 & IH2 & IH3 & IH4 & IH5)]; [done|].
  unfold collect, send_msgs, recv_count, sleeps in *. cbn.
  unfold send_msgs. by rewrite IH1, IH2, IH3, IH4, IH5.
Qed.

(** X5.  "If we didn't use go, it would take 6 seconds": on a channel with
    room for every result, the downloader that calls [download] itself
    never deadlocks, and every run of it continues to the return of
    [main], where the results have been received in the order of the
    sites and the clock stands at two seconds per site. *)
Theorem sequential_takes_the_sum (sites : list string) K sched s :
  length sites ≤ K →
  run sched (init K (seq_prog sites)) = Some s →
  outcome_of s ≠ Deadlock ∧
  ∃ sched' s', run sched' s = Some s' ∧
    outcome_of s' = Completed (done_msg <$> sites) ∧
    now s' = (Z.of_nat (length sites) * (2 * Second))%Z.
Proof.
  intros HK Hrun.
  destruct (downloads_shape sites (collect (length sites) ++ [Println finished]))
    as (D1 & D2 & D3 & D4 & D5).
  destruct (collect_shape (length sites) finished) as (E1 & E2 & E3 & E4 & E5).
  fold (seq_prog sites) in *.
  rewrite E1 in D1. rewrite E2 in D2. rewrite E3, app_nil_r in D3.
  rewrite E4 in D4. rewrite E5, Z.add_0_r in D5.
  assert (∀ s1, reachable (init K (seq_prog sites)) s1 →
            (exited s1 = false → is_Some (exec (Local 0) s1)) ∧
            (exited s1 = true →
               received s1 = done_msg <$> sites ∧
               now s1 = (Z.of_nat (length sites) * nap)%Z)) as Hall.
  { intros s1 H1. rewrite <- D3, <- D5.
    apply (lone_completes K); try done; rewrite ?D3, ?D4, ?length_fmap; done. }
  assert (∀ s1, reachable (init K (seq_prog sites)) s1 →
            deadlocked s1 = false) as Hlive.
  { intros s1 H1. destruct (deadlocked s1) eqn:Hd; [|done].
    apply deadlocked_spec in Hd as [Hex Hno].
    destruct (Hall s1 H1) as [Hgo _]. specialize (Hgo Hex).
    rewrite Hno in Hgo. by destruct Hgo. }
  pose proof (run_reachable _ _ _ Hrun) as Hre.
  split.
  { unfold outcome_of. destruct (exited s); [done|]. by rewrite Hlive. }
  destruct (run_to_end s) as (sched' & s' & Hrun' & Hend).
  assert (reachable (init K (seq_prog sites)) s') as Hre'.
  { apply (run_reachable (sched ++ sched')). by rewrite run_app, Hrun. }
  destruct Hend as [Hex|Hd]; [|by rewrite Hlive in Hd].
  exists sched', s'. destruct (Hall s' Hre') as [_ [Hrecv Hnow]]; [done|].
  unfold outcome_of. rewrite Hex, Hrecv. done.
Qed.

Lemma sequential_takes_the_sum_witness :
  ∃ sched' s',
    run sched' (init 3 (seq_prog the_sites)) = Some s' ∧
    outcome_of s' =
      Completed ["Google.com is done!"; "Amazon.com is done!";
                 "Github.com is done!"] ∧
    now s' = 6000000000%Z.
Proof.
  edestruct (sequential_takes_the_sum the_sites 3 [] (init 3 (seq_prog the_sites)))
    as [_ H]; [vm_compute; lia | reflexivity | exact H].
Defined.

(** ** What a download does, from its launch to its end *)

(** The goroutine an event belongs to. *)
Definition actor (e : event) : nat :=
  match e with
  | EvPrint g _ _ | EvGo g _ _ | EvSend g _ _ | EvRecv g _ _ => g
  end.

(** The events of goroutine [i], in their order. *)
Definition history (i : nat) (s : state) : list event :=
  filter (λ e, actor e = i) (trace s).

(** The two events of the download of the [j]-th site: its line at the
    launch, its result two seconds later. *)
Definition life (j : nat) (site : string) : list event :=
  [EvPrint (S j) (starting site) 0; EvSend (S j) (done_msg site) nap].

(** How many of them a download has behind it after [k] statements. *)
Definition lived (k : nat) : nat :=
  match k with 0 => 0 | 1 | 2 => 1 | _ => 2 end.

Lemma vreach_history sites K v tr j site :
  vreach sites K v tr →
  sites !! j = Some site →
  filter (λ e, actor e = S j) tr
  = take (from_option (λ w, lived w.1) 0 (workers v !! j)) (life j site).
Proof.
  intros Hv Hj. induction Hv as [|v tr evs v' Hr IH Hvs]; [done|].
  pose proof (vreach_step _ _ _ _ _ _ Hr Hvs) as Hr'.
  destruct (vreach_time _ _ _ _ Hr) as (Hw & _).
  destruct (vreach_time _ _ _ _ Hr') as (Hw' & _).
  rewrite filter_app, IH. clear IH.
  destruct Hvs; cbn in *; repeat case_decide; simplify_eq;
    rewrite ?app_nil_r; try done;
    try (rewrite list_lookup_insert_ne by congruence; done);
    try match goal with
        | Hk : ?ws !! _ = Some _ |- _ =>
            pose proof (lookup_lt_Some _ _ _ Hk) as Hlt;
            pose proof (Forall_lookup_1 _ _ _ _ Hw Hk) as Hwj;
            pose proof (Forall_lookup_1 _ _ _ _ Hw' (list_lookup_insert_eq ws _ _ Hlt)) as Hwj';
            unfold worker_time in Hwj, Hwj'; cbn in Hwj, Hwj';
            rewrite Hk, list_lookup_insert_eq by done; cbn
        end.
  - destruct (decide (j < length ws)); [by rewrite lookup_app_l|].
    rewrite lookup_app_r, (lookup_ge_None_2 ws) by lia.
    by destruct (j - length ws) as [|[|?]].
  - by destruct Hwj as [[_ ->]|[? _]]; [|lia].
  - destruct (decide (j0 = j)) as [->|]; [|by rewrite list_lookup_insert_ne].
    by rewrite H0, list_lookup_insert_eq by (by eapply lookup_lt_Some).
  - by destruct Hwj' as [[? _]|[_ ->]]; [lia|].
  - by destruct Hwj' as [[? _]|[_ ->]]; [lia|].
Qed.

(** X6.  In every run of the downloader, on a channel of any capacity, the
    goroutine of each site does what [download] says and nothing else: it
    writes its line "Starting download from: <site>" at its launch, at time
    0, and sends "<site> is done!" two seconds later, in this order and
    once each.  When [main] returns it has done both. *)
Theorem download_history sites K sched s j site :
  run sched (init K (run_prog sites)) = Some s →
  sites !! j = Some site →
  history (S j) s `prefix_of` life j site ∧
  (exited s = true → history (S j) s = life j site).
Proof.
  intros Hrun Hj. apply run_reachable in Hrun.
  destruct (reach_view sites K s Hrun) as (v & tr & Hv & ->).
  unfold history. cbn [trace concr].
  rewrite (vreach_history _ _ _ _ _ _ Hv Hj). split.
  - apply prefix_take.
  - rewrite exited_concr. intros Hex.
    destruct (vreach_exit _ _ _ _ Hv Hex) as (Hlen & _ & Hall & _).
    destruct (lookup_lt_is_Some_2 (workers v) j) as [w Hw].
    { rewrite Hlen. by eapply lookup_lt_Some. }
    rewrite Hw. cbn. by rewrite (Forall_lookup_1 _ _ _ _ Hall Hw).
Qed.

Lemma download_history_witness :
  ∃ s, run demo_sched (init 0 main) = Some s ∧
       exited s = true ∧
       history 2 s = [EvPrint 2 "Starting download from: Amazon.com" 0;
                      EvSend 2 "Amazon.com is done!" 2000000000].
Proof.
  eexists. split; [vm_compute; reflexivity|].
  split; [vm_compute; reflexivity|].
  match goal with
  | |- history 2 ?s = _ =>
      destruct (download_history the_sites 0 demo_sched s 1 "Amazon.com")
        as [_ H]; [vm_compute; reflexivity | reflexivity |]
  end.
  rewrite H; [reflexivity | vm_compute; reflexivity].
Defined.
